(** * Spectrum: audio capture -> FFT -> bounded queue -> bar rendering

    A shallow embedding of [main.py].  Sample values, FFT magnitudes and
    pixel heights are numpy [float64] values in the program; they are
    modelled here as real numbers, so rounding, infinities and NaN are
    outside the model.  The numpy, queue, sounddevice and tkinter calls
    are modelled by their documented behaviour; calls into the audio
    device and into Tk may raise, which an explicit fault schedule in the
    program state decides. *)

From Stdlib Require Import String.
From Stdlib Require Import Reals Lra Lia List Bool Arith ZArith.
Import ListNotations.

Local Open Scope R_scope.

(** ** Configuration constants (main.py, lines 10-13) *)

Definition SAMPLE_RATE : Z := 44100%Z.
Definition WINDOW_SIZE : nat := 1024.
Definition NUM_BARS : nat := 60.
Definition NOISE_THRESHOLD : R := 0.05.

(** ** numpy arrays and the numeric kernel *)

Module Np.

(** A two-dimensional array of shape [(shape0, shape1)]: the buffer the
    audio stream hands to its callback is [(frames, channels)]. *)
Record ndarray2 : Type := mk_ndarray2 {
  shape0 : nat;
  shape1 : nat;
  item : nat -> nat -> R
}.

(** [a[:, 0]] : column 0 as a one-dimensional array.  Indexing axis 1 at
    0 is out of bounds when that axis is empty. *)
Definition column0 (a : ndarray2) : option (list R) :=
  if Nat.eqb (shape1 a) 0 then None
  else Some (map (fun i => item a i 0%nat) (seq 0 (shape0 a))).

Definition complex : Type := (R * R)%type.

(** [np.abs] of a complex number. *)
Definition cabs (z : complex) : R :=
  sqrt (fst z * fst z + snd z * snd z).

(** The input of a transform of length [n] is cropped when longer than
    [n] and padded with zeros when shorter. *)
Definition resize (n : nat) (a : list R) : list R :=
  firstn n a ++ repeat 0 (n - length a).

(** Bin [k] of the discrete Fourier transform of length [n]:
    the sum over [j] of [a_j * exp (-2 pi i j k / n)], the samples of
    [a] being numbered from [j]. *)
Fixpoint dft_sum (a : list R) (n k j : nat) : complex :=
  match a with
  | [] => (0, 0)
  | x :: a' =>
      let theta := 2 * PI * INR j * INR k / INR n in
      let rest := dft_sum a' n k (S j) in
      (x * cos theta + fst rest, - (x * sin theta) + snd rest)
  end.

(** [np.fft.rfft(a, n=n)]: the [n / 2 + 1] non-negative-frequency bins. *)
Definition rfft (a : list R) (n : nat) : list complex :=
  map (fun k => dft_sum (resize n a) n k 0) (seq 0 (n / 2 + 1)).

(** [np.where(a > t, a, 0)]. *)
Definition where_gt (t : R) (a : list R) : list R :=
  map (fun x => if Rlt_dec t x then x else 0) a.

(** [np.all(a == 0)]. *)
Definition all_zero (a : list R) : bool :=
  forallb (fun x => if Req_dec_T x 0 then true else false) a.

(** [np.interp(x, (xp0, xp1), (fp0, fp1))] at one point, following the
    two-point search of numpy: right of [xp1] gives [fp1], left of
    [xp0] gives [fp0], a point at or after [xp1] in the scan gives
    [fp1], a point equal to [xp0] gives [fp0], and the rest is on the
    line through the two points. *)
Definition interp1 (xp0 xp1 fp0 fp1 x : R) : R :=
  if Rlt_dec xp1 x then fp1
  else if Rlt_dec x xp0 then fp0
  else if Rle_dec xp1 x then fp1
  else if Req_dec_T xp0 x then fp0
  else (fp1 - fp0) / (xp1 - xp0) * (x - xp0) + fp0.

Definition interp (a : list R) (xp0 xp1 fp0 fp1 : R) : list R :=
  map (interp1 xp0 xp1 fp0 fp1) a.

(** [np.clip(a, lo, hi)] is [minimum(maximum(a, lo), hi)]. *)
Definition clip1 (lo hi x : R) : R := Rmin (Rmax x lo) hi.

Definition clip (a : list R) (lo hi : R) : list R := map (clip1 lo hi) a.

End Np.

(** Python's builtin [max] over a sequence: keeps the first element until
    a strictly greater one is met.  [None] for the empty sequence, where
    Python raises [ValueError]. *)
Definition py_max (a : list R) : option R :=
  match a with
  | [] => None
  | x :: a' =>
      Some (fold_left (fun acc y => if Rlt_dec acc y then y else acc) a' x)
  end.

(** Lines 102-104 of [_audio_callback], from the channel-0 samples to the
    frame that is queued. *)
Definition fft_magnitudes (samples : list R) : list R :=
  map Np.cabs (Np.rfft samples WINDOW_SIZE).

Definition spectrum_of (samples : list R) : list R :=
  Np.where_gt NOISE_THRESHOLD (firstn NUM_BARS (fft_magnitudes samples)).

(** ** Exceptions, program state and the exception-and-state monad *)

(** The exceptions the program can meet.  All are subclasses of Python's
    [Exception]. *)
Inductive exn : Type :=
| QueueFull        (* queue.Full *)
| QueueEmpty       (* queue.Empty *)
| TclError         (* tk.TclError *)
| IndexError
| ValueError
| PortAudioError.  (* sd.PortAudioError *)

(** A line of output: a literal text, or a text followed by [str(e)],
    the message of the caught exception [e] as [print(f"...{e}")] writes
    it.  The message is chosen by the library that raised the exception
    and is not modelled: the line records the prefix and the exception. *)
Inductive output_line : Type :=
| Line (text : string)
| ErrorLine (prefix : string) (e : exn).

Coercion Line : string >-> output_line.

(** State of the [sd.InputStream] object: it is created open and inactive,
    [start] makes it active, [stop] inactive, [close] closes it. *)
Inductive stream_state : Type := StreamInactive | StreamActive | StreamClosed.

(** Coordinates of a canvas rectangle [(x0, y0, x1, y1)]. *)
Record rect : Type := mk_rect { rx0 : Z; ry0 : R; rx1 : Z; ry1 : R }.

(** The objects of the program.  [data_queue] is the one [queue.Queue]
    that [Application] and [AudioStream] both hold; [canvas] gives the
    coordinates of the rectangles of [SpectrumVisualizer.bars], by bar
    index; [timers] counts the pending [root.after] callbacks; [stdout] is
    what [print] has written; [faults] is the schedule of the calls into
    the audio device and into Tk: each call takes the head, and raises
    when it is [true]. *)
Record World : Type := mk_World {
  app_is_running : bool;
  data_queue : list (list R);
  vis_is_running : bool;
  canvas : list rect;
  aud_is_running : bool;
  stream : option stream_state;
  timers : nat;
  stdout : list output_line;
  faults : list bool
}.

Definition set_app_is_running (b : bool) (w : World) : World :=
  mk_World b (data_queue w) (vis_is_running w) (canvas w) (aud_is_running w)
           (stream w) (timers w) (stdout w) (faults w).
Definition set_data_queue (q : list (list R)) (w : World) : World :=
  mk_World (app_is_running w) q (vis_is_running w) (canvas w)
           (aud_is_running w) (stream w) (timers w) (stdout w) (faults w).
Definition set_vis_is_running (b : bool) (w : World) : World :=
  mk_World (app_is_running w) (data_queue w) b (canvas w) (aud_is_running w)
           (stream w) (timers w) (stdout w) (faults w).
Definition set_canvas (c : list rect) (w : World) : World :=
  mk_World (app_is_running w) (data_queue w) (vis_is_running w) c
           (aud_is_running w) (stream w) (timers w) (stdout w) (faults w).
Definition set_aud_is_running (b : bool) (w : World) : World :=
  mk_World (app_is_running w) (data_queue w) (vis_is_running w) (canvas w) b
           (stream w) (timers w) (stdout w) (faults w).
Definition set_stream (s : option stream_state) (w : World) : World :=
  mk_World (app_is_running w) (data_queue w) (vis_is_running w) (canvas w)
           (aud_is_running w) s (timers w) (stdout w) (faults w).
Definition set_timers (n : nat) (w : World) : World :=
  mk_World (app_is_running w) (data_queue w) (vis_is_running w) (canvas w)
           (aud_is_running w) (stream w) n (stdout w) (faults w).
Definition set_stdout (o : list output_line) (w : World) : World :=
  mk_World (app_is_running w) (data_queue w) (vis_is_running w) (canvas w)
           (aud_is_running w) (stream w) (timers w) o (faults w).
Definition set_faults (f : list bool) (w : World) : World :=
  mk_World (app_is_running w) (data_queue w) (vis_is_running w) (canvas w)
           (aud_is_running w) (stream w) (timers w) (stdout w) f.

(** Outcome of a statement: it completes with a value or raises. *)
Inductive result (A : Type) : Type :=
| Ok (a : A)
| Raise (e : exn).
Arguments Ok {A} a.
Arguments Raise {A} e.

(** A statement runs in a state and leaves an outcome and a state: what a
    statement did before it raised stays done. *)
Definition M (A : Type) : Type := World -> result A * World.

Definition ret {A} (a : A) : M A := fun w => (Ok a, w).
Definition raise {A} (e : exn) : M A := fun w => (Raise e, w).
Definition bind {A B} (m : M A) (k : A -> M B) : M B :=
  fun w => match m w with
           | (Ok a, w') => k a w'
           | (Raise e, w') => (Raise e, w')
           end.
Definition get {A} (f : World -> A) : M A := fun w => (Ok (f w), w).
Definition modify (f : World -> World) : M unit := fun w => (Ok tt, f w).

Declare Scope monad_scope.
Delimit Scope monad_scope with monad.
Notation "x <- m ;; k" := (bind m (fun x => k))
  (at level 61, m at next level, right associativity) : monad_scope.
Notation "m ;; k" := (bind m (fun _ => k))
  (at level 61, right associativity) : monad_scope.
Local Open Scope monad_scope.

(** [try: body except ...: handler]: [handler e] is [None] when no
    [except] clause matches [e], which then propagates. *)
Definition try_except {A} (body : M A) (handler : exn -> option (M A)) : M A :=
  fun w => match body w with
           | (Ok a, w') => (Ok a, w')
           | (Raise e, w') =>
               match handler e with
               | Some h => h w'
               | None => (Raise e, w')
               end
           end.

(** A call into the audio device or into Tk, raising [e] when the fault
    schedule says so. An empty schedule means no fault. *)
Definition ext_call (e : exn) : M unit :=
  fun w => match faults w with
           | [] => (Ok tt, w)
           | false :: fs => (Ok tt, set_faults fs w)
           | true :: fs => (Raise e, set_faults fs w)
           end.

Definition print (s : output_line) : M unit :=
  modify (fun w => set_stdout (stdout w ++ [s]) w).

(** ** queue.Queue(maxsize=100), line 123 *)

Module Queue.

Definition maxsize : nat := 100.

Definition empty : M bool :=
  get (fun w => Nat.eqb (length (data_queue w)) 0).

(** [put_nowait]: raises [Full] at once when [qsize() >= maxsize],
    otherwise appends at the tail. *)
Definition put_nowait (frame : list R) : M unit :=
  fun w =>
    if Nat.leb maxsize (length (data_queue w)) then (Raise QueueFull, w)
    else (Ok tt, set_data_queue (data_queue w ++ [frame]) w).

(** [get_nowait]: raises [Empty] at once when nothing is queued,
    otherwise removes the head. *)
Definition get_nowait : M (list R) :=
  fun w =>
    match data_queue w with
    | [] => (Raise QueueEmpty, w)
    | frame :: rest => (Ok frame, set_data_queue rest w)
    end.

End Queue.

(** ** class AudioStream *)

Module AudioStream.

Definition stream_start : M unit :=
  ext_call PortAudioError;;
  modify (set_stream (Some StreamActive)).

(** The [active] property of the stream. *)
Definition stream_active : M bool :=
  ext_call PortAudioError;;
  get (fun w => match stream w with
                | Some StreamActive => true
                | _ => false
                end).

Definition stream_stop : M unit :=
  ext_call PortAudioError;;
  modify (fun w => match stream w with
                   | Some StreamActive => set_stream (Some StreamInactive) w
                   | _ => w
                   end).

Definition stream_close : M unit :=
  ext_call PortAudioError;;
  modify (set_stream (Some StreamClosed)).

(** [start], lines 89-95: open the input stream, then start it. *)
Definition start : M unit :=
  ext_call PortAudioError;;
  modify (set_stream (Some StreamInactive));;
  stream_start.

(** [_audio_callback], lines 97-107.  Only [queue.Full] is named by the
    [except] clause. *)
Definition _audio_callback (indata : Np.ndarray2) : M unit :=
  running <- get aud_is_running;;
  if negb running then ret tt
  else
    try_except
      (match Np.column0 indata with
       | None => raise IndexError
       | Some samples => Queue.put_nowait (spectrum_of samples)
       end)
      (fun e => match e with
                | QueueFull => Some (ret tt)
                | _ => None
                end).

(** [stop], lines 109-117. *)
Definition stop : M unit :=
  modify (set_aud_is_running false);;
  s <- get stream;;
  match s with
  | None => ret tt
  | Some _ =>
      try_except
        (active <- stream_active;;
         (if active then stream_stop else ret tt);;
         stream_close)
        (fun e => Some (print (ErrorLine "Error closing stream: " e)))
  end.

End AudioStream.

(** ** class SpectrumVisualizer *)

Module SpectrumVisualizer.

Definition max_height : R := 400.
Definition bar_width : Z := (800 / Z.of_nat NUM_BARS)%Z.

(** The rectangle [_initialize_bars] creates for bar [i], lines 44-49. *)
Definition initial_bar (i : nat) : rect :=
  let x0 := (Z.of_nat i * bar_width)%Z in
  mk_rect x0 400 (x0 + bar_width - 2)%Z 400.

Definition initial_canvas : list rect := map initial_bar (seq 0 NUM_BARS).

Fixpoint list_set {A} (i : nat) (x : A) (l : list A) : list A :=
  match l, i with
  | [], _ => []
  | _ :: l', O => x :: l'
  | y :: l', S i' => y :: list_set i' x l'
  end.

(** [self.canvas.coords(bar, x0, y0, x1, y1)] for the bar of index [i]. *)
Definition canvas_coords (i : nat) (r : rect) : M unit :=
  ext_call TclError;;
  modify (fun w => set_canvas (list_set i r (canvas w)) w).

(** Lines 59-64: the loop of the all-zero branch.  A [TclError] returns
    from [update_bars]. *)
Fixpoint collapse_bars (bars : list nat) : M unit :=
  match bars with
  | [] => ret tt
  | bar :: rest =>
      drawn <- try_except
                 (canvas_coords bar (mk_rect 0 0 0 0);; ret true)
                 (fun e => match e with
                           | TclError => Some (ret false)
                           | _ => None
                           end);;
      if drawn then collapse_bars rest else ret tt
  end.

(** Lines 71-74: the rectangle of bar [i] for the value [v]. *)
Definition bar_rect (i : nat) (v : R) : rect :=
  let height := max_height - v in
  let x0 := (Z.of_nat i * bar_width)%Z in
  let x1 := ((Z.of_nat i + 1) * bar_width - 2)%Z in
  mk_rect x0 height x1 max_height.

(** Lines 70-74: the loop of the other branch, over the bar indices.
    [spectrum[i]] is out of range when the frame is shorter than the
    list of bars. *)
Fixpoint draw_bars (spectrum : list R) (bars : list nat) : M unit :=
  match bars with
  | [] => ret tt
  | i :: rest =>
      match nth_error spectrum i with
      | None => raise IndexError
      | Some v =>
          canvas_coords i (bar_rect i v);;
          draw_bars spectrum rest
      end
  end.

(** Lines 67-68: the heights of a frame that is not all zero. *)
Definition rescale (spectrum : list R) : option (list R) :=
  match py_max spectrum with
  | None => None
  | Some peak =>
      Some (Np.clip (Np.interp spectrum 0 peak 0 max_height) 0 max_height)
  end.

(** [update_bars], lines 51-77. *)
Definition update_bars (spectrum : list R) : M unit :=
  running <- get vis_is_running;;
  if negb running then ret tt
  else if Np.all_zero spectrum then collapse_bars (seq 0 NUM_BARS)
  else
    try_except
      (match rescale spectrum with
       | None => raise ValueError
       | Some heights => draw_bars heights (seq 0 NUM_BARS)
       end)
      (fun e => match e with
                | TclError => Some (modify (set_vis_is_running false))
                | _ => None
                end).

Definition stop : M unit := modify (set_vis_is_running false).

End SpectrumVisualizer.

(** ** class Application *)

Module Application.

(** [root.after(16, self.process_queue)]. *)
Definition root_after : M unit :=
  ext_call TclError;;
  modify (fun w => set_timers (S (timers w)) w).

Definition root_after_cancel : M unit :=
  ext_call TclError;;
  modify (fun w => set_timers (Nat.pred (timers w)) w).

Definition root_quit : M unit := ext_call TclError.

Definition root_destroy : M unit :=
  ext_call TclError;;
  modify (set_timers 0).

(** The state [__init__] builds, lines 121-126, under a fault schedule. *)
Definition init (schedule : list bool) : World :=
  mk_World true [] true SpectrumVisualizer.initial_canvas true None 0 []
           schedule.

(** Lines 142-144: the [while] loop.  Each turn removes one frame, so
    the number of queued frames bounds the number of turns. *)
Fixpoint drain_loop (fuel : nat) : M unit :=
  match fuel with
  | O => ret tt
  | S fuel' =>
      is_empty <- Queue.empty;;
      running <- get app_is_running;;
      if negb is_empty && running then
        spectrum <- Queue.get_nowait;;
        SpectrumVisualizer.update_bars spectrum;;
        drain_loop fuel'
      else ret tt
  end.

(** [process_queue], lines 137-151. *)
Definition process_queue : M unit :=
  running <- get app_is_running;;
  if negb running then ret tt
  else
    queued <- get (fun w => length (data_queue w));;
    try_except
      (drain_loop queued)
      (fun e => match e with
                | QueueEmpty => Some (ret tt)
                | _ => Some (print (ErrorLine "Queue processing error: " e))
                end);;
    still_running <- get app_is_running;;
    if still_running then root_after else ret tt.

(** [stop], lines 153-166. *)
Definition stop : M unit :=
  modify (set_app_is_running false);;
  SpectrumVisualizer.stop;;
  AudioStream.stop;;
  try_except
    (root_after;; root_after_cancel;; root_quit;; root_destroy)
    (fun _ => Some (ret tt));;
  print (Line "Application stopped.").

(** [signal_handler], lines 133-135. *)
Definition signal_handler : M unit :=
  print (Line "stopping application...");;
  stop.

(** [run], lines 168-173, up to the call of [mainloop]. *)
Definition run : M unit :=
  AudioStream.start;;
  root_after.

End Application.

(** ** The two ends of the queue, and the operations of the program *)

Module Producer.

(** Lines 105-107 with the outcome kept: [true] when the frame was
    queued, [false] when [queue.Full] was caught and the frame dropped. *)
Definition try_push (frame : list R) : M bool :=
  try_except
    (Queue.put_nowait frame;; ret true)
    (fun e => match e with
              | QueueFull => Some (ret false)
              | _ => None
              end).

(** Pushes the frames in order; the value is the number of dropped
    frames. *)
Fixpoint push_all (frames : list (list R)) : M nat :=
  match frames with
  | [] => ret 0%nat
  | frame :: rest =>
      queued <- try_push frame;;
      dropped <- push_all rest;;
      ret (if queued then dropped else S dropped)
  end.

End Producer.

Module Consumer.

(** The reads of lines 142-143, [while not empty: get_nowait()], with
    the frames collected in the order they are read. *)
Fixpoint pop_all (fuel : nat) : M (list (list R)) :=
  match fuel with
  | O => ret []
  | S fuel' =>
      is_empty <- Queue.empty;;
      if is_empty then ret []
      else
        frame <- Queue.get_nowait;;
        rest <- pop_all fuel';;
        ret (frame :: rest)
  end.

End Consumer.

(** What can happen to the program once it is built: the methods of its
    three classes, the timer firing and a signal arriving. *)
Inductive operation : Type :=
| OpRun
| OpAudioStart
| OpAudioCallback (indata : Np.ndarray2)
| OpAudioStop
| OpUpdateBars (spectrum : list R)
| OpVisualizerStop
| OpProcessQueue
| OpTick
| OpStop
| OpSignal.

Definition perform (o : operation) : M unit :=
  match o with
  | OpRun => Application.run
  | OpAudioStart => AudioStream.start
  | OpAudioCallback indata => AudioStream._audio_callback indata
  | OpAudioStop => AudioStream.stop
  | OpUpdateBars spectrum => SpectrumVisualizer.update_bars spectrum
  | OpVisualizerStop => SpectrumVisualizer.stop
  | OpProcessQueue => Application.process_queue
  | OpTick =>
      modify (fun w => set_timers (Nat.pred (timers w)) w);;
      Application.process_queue
  | OpStop => Application.stop
  | OpSignal => Application.signal_handler
  end.

(** The operations that go through [Application.stop]. *)
Definition is_stop (o : operation) : bool :=
  match o with
  | OpStop | OpSignal => true
  | _ => false
  end.

(** The state an operation leaves, whether it completed or raised. *)
Definition step (o : operation) (w : World) : World := snd (perform o w).

(** The states a sequence of operations goes through, the first included. *)
Fixpoint trace (ops : list operation) (w : World) : list World :=
  w :: match ops with
       | [] => []
       | o :: rest => trace rest (step o w)
       end.

(** Height in pixels of a rectangle. *)
Definition bar_height (r : rect) : R := ry1 r - ry0 r.

(** [canvas_frame w w']: from [w] to [w'] nothing but the canvas and the
    fault schedule may have changed. *)
Definition canvas_frame (w w' : World) : Prop :=
  app_is_running w' = app_is_running w /\
  data_queue w' = data_queue w /\
  vis_is_running w' = vis_is_running w /\
  aud_is_running w' = aud_is_running w /\
  stream w' = stream w /\
  timers w' = timers w /\
  stdout w' = stdout w.

(** [flags_mono w w']: no lifecycle flag that is false in [w] is true in
    [w']. *)
Definition flags_mono (w w' : World) : Prop :=
  (app_is_running w = false -> app_is_running w' = false) /\
  (vis_is_running w = false -> vis_is_running w' = false) /\
  (aud_is_running w = false -> aud_is_running w' = false).

(** [preserves Rel m]: the state [m] leaves is related by [Rel] to the
    state it started in, whether [m] completed or raised. *)
Definition preserves (Rel : World -> World -> Prop) {A} (m : M A) : Prop :=
  forall w, Rel w (snd (m w)).

(** What line 117 prints when a call into the stream raised: the prefix
    followed by the message of the [PortAudioError]. *)
Definition close_message : output_line :=
  ErrorLine "Error closing stream: " PortAudioError.

(** The values of a flag along a run are some [true]s followed by some
    [false]s. *)
Definition falls_once (flags : list bool) : Prop :=
  exists n m : nat, flags = repeat true n ++ repeat false m.

(** ** Geometry of the canvas and well-formed states *)

(** Line 36: the canvas is 750 pixels wide and 400 high. *)
Definition canvas_width : Z := 750.
Definition canvas_height : R := 400.

(** The rectangles one complete [update_bars] gives the bars for a frame:
    lines 59-61 for an all-zero frame, lines 67-74 otherwise. *)
Definition frame_canvas (frame : list R) : list rect :=
  if Np.all_zero frame then repeat (mk_rect 0 0 0 0) NUM_BARS
  else
    match SpectrumVisualizer.rescale frame with
    | Some heights =>
        map (fun i => SpectrumVisualizer.bar_rect i (nth i heights 0))
            (seq 0 NUM_BARS)
    | None => []
    end.

(** What the rectangle of bar [i] can be: collapsed at the origin, or the
    column of the bar, 11 pixels wide, from a top inside the canvas down
    to its bottom edge. *)
Definition bar_in_place (i : nat) (r : rect) : Prop :=
  r = mk_rect 0 0 0 0 \/
  (rx0 r = (13 * Z.of_nat i)%Z /\
   rx1 r = (13 * Z.of_nat i + 11)%Z /\
   ry1 r = canvas_height /\
   0 <= ry0 r <= canvas_height).

Definition canvas_in_place (c : list rect) : Prop :=
  length c = NUM_BARS /\
  forall i r, nth_error c i = Some r -> bar_in_place i r.

(** A frame as the audio callback queues it. *)
Definition frame_well_formed (frame : list R) : Prop :=
  length frame = NUM_BARS /\
  Forall (fun m => 0 <= m /\ (m = 0 \/ NOISE_THRESHOLD < m)) frame.

(** Sample [i] of the analysis window the callback takes from a buffer:
    channel 0 of frame [i], and 0 past the last frame. *)
Definition window_sample (indata : Np.ndarray2) (i : nat) : R :=
  if Nat.ltb i (Np.shape0 indata) then Np.item indata i 0%nat else 0.

(** The lines lines 117, 134 and 166 print. *)
Definition lifecycle_lines : list output_line :=
  [Line "stopping application..."; Line "Application stopped.";
   close_message].

(** What line 148 prints for the exception [e]: the prefix followed by
    the message of [e]. *)
Definition queue_error_line (e : exn) : output_line :=
  ErrorLine "Queue processing error: " e.

(** ** The transform stage: lines 102-104 *)

Section Transform.

Lemma Forall_take {A} (P : A -> Prop) (n : nat) (l : list A) :
  Forall P l -> Forall P (firstn n l).
Proof.
  intros H. revert n. induction H as [|x l Hx _ IH]; intros [|n]; simpl;
    constructor; auto.
Qed.

Lemma rfft_length (a : list R) (n : nat) :
  length (Np.rfft a n) = (n / 2 + 1)%nat.
Proof. unfold Np.rfft. now rewrite length_map, length_seq. Qed.

Lemma fft_magnitudes_length (samples : list R) :
  length (fft_magnitudes samples) = 513%nat.
Proof.
  unfold fft_magnitudes. rewrite length_map, rfft_length.
  unfold WINDOW_SIZE. now vm_compute.
Qed.

Lemma spectrum_of_length (samples : list R) :
  length (spectrum_of samples) = NUM_BARS.
Proof.
  unfold spectrum_of, Np.where_gt.
  rewrite length_map, length_firstn, fft_magnitudes_length.
  unfold NUM_BARS. apply Nat.min_l. lia.
Qed.

Lemma resize_length (n : nat) (a : list R) : length (Np.resize n a) = n.
Proof.
  unfold Np.resize. rewrite length_app, length_firstn, repeat_length. lia.
Qed.

(** The gate on one magnitude. *)
Lemma gate_cases (t x : R) :
  (x <= t /\ (if Rlt_dec t x then x else 0) = 0) \/
  (t < x /\ (if Rlt_dec t x then x else 0) = x).
Proof. destruct (Rlt_dec t x); [right | left]; split; lra. Qed.

Lemma where_gt_pointwise (t : R) (a : list R) :
  Forall2 (fun raw m => (raw <= t /\ m = 0) \/ (t < raw /\ m = raw))
          a (Np.where_gt t a).
Proof.
  induction a as [|x a IH]; simpl; constructor; auto.
  destruct (gate_cases t x) as [[Hle ->]|[Hlt ->]]; auto.
Qed.

Lemma where_gt_gated (t : R) (a : list R) :
  Forall (fun m => m = 0 \/ t < m) (Np.where_gt t a).
Proof.
  induction a as [|x a IH]; simpl; constructor; auto.
  destruct (gate_cases t x) as [[_ ->]|[Hlt ->]]; auto.
Qed.

Lemma resize_zero (n : nat) (a : list R) :
  Forall (eq 0) a -> Forall (eq 0) (Np.resize n a).
Proof.
  intros Ha. unfold Np.resize. apply Forall_app. split.
  - now apply Forall_take.
  - apply Forall_forall. intros x Hx. symmetry. exact (repeat_spec _ _ _ Hx).
Qed.

Lemma dft_sum_zero (a : list R) (n k : nat) :
  Forall (eq 0) a -> forall j, Np.dft_sum a n k j = (0, 0).
Proof.
  induction 1 as [|x a Hx _ IH]; intros j; simpl; [reflexivity|].
  rewrite IH. subst x. simpl. f_equal; ring.
Qed.

Lemma cabs_zero : Np.cabs (0, 0) = 0.
Proof.
  unfold Np.cabs. simpl. replace (0 * 0 + 0 * 0) with 0 by ring.
  apply sqrt_0.
Qed.

Lemma cabs_nonneg (z : Np.complex) : 0 <= Np.cabs z.
Proof. unfold Np.cabs. apply sqrt_pos. Qed.

Lemma fft_magnitudes_zero (samples : list R) :
  Forall (eq 0) samples -> Forall (eq 0) (fft_magnitudes samples).
Proof.
  intros Hz. unfold fft_magnitudes, Np.rfft. rewrite map_map.
  apply Forall_forall. intros m Hm. apply in_map_iff in Hm.
  destruct Hm as [k [<- _]].
  rewrite dft_sum_zero by now apply resize_zero.
  symmetry. apply cabs_zero.
Qed.

Lemma where_gt_zero (a : list R) :
  Forall (eq 0) a -> Forall (eq 0) (Np.where_gt NOISE_THRESHOLD a).
Proof.
  induction 1 as [|x a Hx _ IH]; simpl; constructor; auto.
  subst x. destruct (Rlt_dec NOISE_THRESHOLD 0) as [H|_]; [|reflexivity].
  unfold NOISE_THRESHOLD in H. lra.
Qed.

Lemma all_zero_repeat (a : list R) :
  Forall (eq 0) a -> a = repeat 0 (length a).
Proof.
  induction 1 as [|x a Hx _ IH]; simpl; [reflexivity|].
  now rewrite <- Hx, <- IH.
Qed.

Lemma spectrum_of_nonneg (samples : list R) :
  Forall (fun m => 0 <= m) (spectrum_of samples).
Proof.
  unfold spectrum_of.
  assert (Hraw : Forall (fun m => 0 <= m)
                   (firstn NUM_BARS (fft_magnitudes samples))).
  { apply Forall_take. unfold fft_magnitudes.
    apply Forall_forall. intros m Hm. apply in_map_iff in Hm.
    destruct Hm as [z [<- _]]. apply cabs_nonneg. }
  induction Hraw as [|x a Hx _ IH]; simpl; constructor; auto.
  destruct (Rlt_dec NOISE_THRESHOLD x); lra.
Qed.

End Transform.

(** ** What a statement preserves *)

Section Preservation.

Variable Rel : World -> World -> Prop.
Hypothesis Rel_refl : forall w, Rel w w.
Hypothesis Rel_trans : forall w1 w2 w3, Rel w1 w2 -> Rel w2 w3 -> Rel w1 w3.

Lemma preserves_ret {A} (a : A) : preserves Rel (ret a).
Proof. intros w. apply Rel_refl. Qed.

Lemma preserves_raise {A} (e : exn) : preserves Rel (@raise A e).
Proof. intros w. apply Rel_refl. Qed.

Lemma preserves_get {A} (f : World -> A) : preserves Rel (get f).
Proof. intros w. apply Rel_refl. Qed.

Lemma preserves_modify (f : World -> World) :
  (forall w, Rel w (f w)) -> preserves Rel (modify f).
Proof. intros H w. apply H. Qed.

Lemma preserves_bind {A B} (m : M A) (k : A -> M B) :
  preserves Rel m -> (forall a, preserves Rel (k a)) ->
  preserves Rel (bind m k).
Proof.
  intros Hm Hk w. unfold bind. specialize (Hm w).
  destruct (m w) as [[a|e] w1]; simpl in *; [|exact Hm].
  eapply Rel_trans; [exact Hm|apply Hk].
Qed.

Lemma preserves_try_except {A} (body : M A) (handler : exn -> option (M A)) :
  preserves Rel body ->
  (forall e h, handler e = Some h -> preserves Rel h) ->
  preserves Rel (try_except body handler).
Proof.
  intros Hb Hh w. unfold try_except. specialize (Hb w).
  destruct (body w) as [[a|e] w1]; simpl in *; [exact Hb|].
  destruct (handler e) as [h|] eqn:He; [|exact Hb].
  eapply Rel_trans; [exact Hb|]. eapply Hh; eassumption.
Qed.

Hypothesis Rel_faults : forall w fs, Rel w (set_faults fs w).

Lemma preserves_ext_call (e : exn) : preserves Rel (ext_call e).
Proof.
  intros w. unfold ext_call.
  destruct (faults w) as [|[|] fs]; simpl; auto.
Qed.

Hypothesis Rel_data_queue : forall w q, Rel w (set_data_queue q w).
Hypothesis Rel_canvas : forall w c, Rel w (set_canvas c w).
Hypothesis Rel_stream : forall w s, Rel w (set_stream s w).
Hypothesis Rel_timers : forall w n, Rel w (set_timers n w).
Hypothesis Rel_stdout : forall w o, Rel w (set_stdout o w).
Hypothesis Rel_vis_stop : forall w, Rel w (set_vis_is_running false w).
Hypothesis Rel_aud_stop : forall w, Rel w (set_aud_is_running false w).

Ltac preserved :=
  repeat match goal with
    | |- preserves _ (ret _) => apply preserves_ret
    | |- preserves _ (raise _) => apply preserves_raise
    | |- preserves _ (get _) => apply preserves_get
    | |- preserves _ (ext_call _) => apply preserves_ext_call
    | |- preserves _ (modify _) => apply preserves_modify; intros; auto
    | |- preserves _ (bind _ _) => apply preserves_bind; [|intros ?]
    | |- preserves _ (try_except _ _) =>
        apply preserves_try_except;
        [|let e := fresh "e" in let h := fresh "h" in
          intros e h; destruct e; intros [= <-]]
    | |- preserves _ (if ?b then _ else _) => destruct b
    | |- preserves _ (match ?x with _ => _ end) => destruct x
    end.

Lemma preserves_print (s : output_line) : preserves Rel (print s).
Proof. unfold print. preserved. Qed.

Lemma preserves_put_nowait (frame : list R) :
  preserves Rel (Queue.put_nowait frame).
Proof.
  intros w. unfold Queue.put_nowait.
  destruct (Nat.leb _ _); simpl; auto.
Qed.

Lemma preserves_get_nowait : preserves Rel Queue.get_nowait.
Proof.
  intros w. unfold Queue.get_nowait.
  destruct (data_queue w); simpl; auto.
Qed.

Lemma preserves_audio_callback (indata : Np.ndarray2) :
  preserves Rel (AudioStream._audio_callback indata).
Proof.
  unfold AudioStream._audio_callback. preserved.
  apply preserves_put_nowait.
Qed.

Lemma preserves_audio_start : preserves Rel AudioStream.start.
Proof.
  unfold AudioStream.start, AudioStream.stream_start. preserved.
Qed.

Lemma preserves_audio_stop : preserves Rel AudioStream.stop.
Proof.
  unfold AudioStream.stop, AudioStream.stream_active,
    AudioStream.stream_stop, AudioStream.stream_close.
  preserved; try apply preserves_print.
  destruct (stream w) as [[| |]|]; auto.
Qed.

Lemma preserves_canvas_coords (i : nat) (r : rect) :
  preserves Rel (SpectrumVisualizer.canvas_coords i r).
Proof. unfold SpectrumVisualizer.canvas_coords. preserved. Qed.

Lemma preserves_collapse_bars (bars : list nat) :
  preserves Rel (SpectrumVisualizer.collapse_bars bars).
Proof.
  induction bars as [|bar rest IH]; simpl; preserved; auto.
  apply preserves_canvas_coords.
Qed.

Lemma preserves_draw_bars (spectrum : list R) (bars : list nat) :
  preserves Rel (SpectrumVisualizer.draw_bars spectrum bars).
Proof.
  induction bars as [|i rest IH]; simpl; preserved; auto.
  apply preserves_canvas_coords.
Qed.

Lemma preserves_update_bars (spectrum : list R) :
  preserves Rel (SpectrumVisualizer.update_bars spectrum).
Proof.
  unfold SpectrumVisualizer.update_bars. preserved.
  - apply preserves_collapse_bars.
  - apply preserves_draw_bars.
Qed.

Lemma preserves_drain_loop (fuel : nat) :
  preserves Rel (Application.drain_loop fuel).
Proof.
  induction fuel as [|fuel IH]; simpl; preserved; auto.
  - apply preserves_get_nowait.
  - apply preserves_update_bars.
Qed.

Lemma preserves_root_after : preserves Rel Application.root_after.
Proof. unfold Application.root_after. preserved. Qed.

Lemma preserves_process_queue : preserves Rel Application.process_queue.
Proof.
  unfold Application.process_queue. preserved;
    try apply preserves_print; try apply preserves_root_after.
  apply preserves_drain_loop.
Qed.

Lemma preserves_run : preserves Rel Application.run.
Proof.
  unfold Application.run. preserved.
  - apply preserves_audio_start.
  - apply preserves_root_after.
Qed.

(** The operations that do not go through [Application.stop]. *)
Lemma preserves_perform_other (o : operation) :
  is_stop o = false -> preserves Rel (perform o).
Proof.
  destruct o; simpl; intros Hstop; try discriminate.
  - apply preserves_run.
  - apply preserves_audio_start.
  - apply preserves_audio_callback.
  - apply preserves_audio_stop.
  - apply preserves_update_bars.
  - unfold SpectrumVisualizer.stop. preserved.
  - apply preserves_process_queue.
  - preserved. apply preserves_process_queue.
Qed.

Hypothesis Rel_app_stop : forall w, Rel w (set_app_is_running false w).

Lemma preserves_stop_tail :
  preserves Rel
    (try_except
       (Application.root_after;; Application.root_after_cancel;;
        Application.root_quit;; Application.root_destroy)
       (fun _ => Some (ret tt));;
     print (Line "Application stopped.")).
Proof.
  unfold Application.root_after_cancel, Application.root_quit,
    Application.root_destroy.
  preserved; try apply preserves_print; try apply preserves_root_after.
Qed.

Lemma preserves_stop : preserves Rel Application.stop.
Proof.
  unfold Application.stop, SpectrumVisualizer.stop,
    Application.root_after_cancel, Application.root_quit,
    Application.root_destroy.
  preserved; try apply preserves_print; try apply preserves_root_after.
  apply preserves_audio_stop.
Qed.

Lemma preserves_perform (o : operation) : preserves Rel (perform o).
Proof.
  destruct (is_stop o) eqn:Hstop; [|now apply preserves_perform_other].
  destruct o; try discriminate; simpl.
  - apply preserves_stop.
  - unfold Application.signal_handler. preserved.
    + apply preserves_print.
    + apply preserves_stop.
Qed.

End Preservation.

(** ** The queue and the audio callback *)

Section QueueFacts.

Lemma set_data_queue_same (w : World) : set_data_queue (data_queue w) w = w.
Proof. now destruct w. Qed.

Lemma try_push_room (frame : list R) (w : World) :
  (length (data_queue w) < Queue.maxsize)%nat ->
  Producer.try_push frame w
  = (Ok true, set_data_queue (data_queue w ++ [frame]) w).
Proof.
  intros Hlt. unfold Producer.try_push, try_except, bind, Queue.put_nowait.
  destruct (Nat.leb_spec Queue.maxsize (length (data_queue w))) as [Hle|_];
    [lia|reflexivity].
Qed.

Lemma try_push_full (frame : list R) (w : World) :
  (Queue.maxsize <= length (data_queue w))%nat ->
  Producer.try_push frame w = (Ok false, w).
Proof.
  intros Hle. unfold Producer.try_push, try_except, bind, Queue.put_nowait.
  destruct (Nat.leb_spec Queue.maxsize (length (data_queue w))) as [_|Hlt];
    [reflexivity|lia].
Qed.

(** Pushing into a queue with [room] free places keeps the first [room]
    frames and drops the others. *)
Lemma push_all_spec (frames : list (list R)) :
  forall (w : World) (room : nat),
    (length (data_queue w) + room = Queue.maxsize)%nat ->
    Producer.push_all frames w
    = (Ok (length frames - room)%nat,
       set_data_queue (data_queue w ++ firstn room frames) w).
Proof.
  induction frames as [|frame rest IH]; intros w room Hroom.
  - simpl. rewrite firstn_nil, app_nil_r, set_data_queue_same. reflexivity.
  - cbn [Producer.push_all]. unfold bind at 1. destruct room as [|room].
    + rewrite try_push_full by lia.
      unfold bind at 1. rewrite (IH w 0%nat) by lia.
      cbn [ret firstn]. rewrite app_nil_r, set_data_queue_same.
      unfold ret. do 2 f_equal. simpl. lia.
    + rewrite try_push_room by lia.
      unfold bind at 1.
      rewrite (IH (set_data_queue (data_queue w ++ [frame]) w) room)
        by (simpl; rewrite length_app; simpl; lia).
      cbn [ret firstn data_queue set_data_queue length Nat.sub].
      rewrite <- app_assoc. reflexivity.
Qed.

(** Reading until the queue is empty gives the queued frames, oldest
    first. *)
Lemma pop_all_spec (q : list (list R)) :
  forall w : World,
    data_queue w = q ->
    Consumer.pop_all (length q) w = (Ok q, set_data_queue [] w).
Proof.
  induction q as [|frame rest IH]; intros w Hq.
  - simpl. unfold ret. rewrite <- Hq, set_data_queue_same. reflexivity.
  - cbn [length Consumer.pop_all]. unfold bind at 1, Queue.empty, get.
    rewrite Hq. cbn [length Nat.eqb].
    unfold bind at 1, Queue.get_nowait. rewrite Hq.
    unfold bind at 1. rewrite (IH (set_data_queue rest w)) by reflexivity.
    reflexivity.
Qed.

Lemma callback_stopped (indata : Np.ndarray2) (w : World) :
  aud_is_running w = false ->
  AudioStream._audio_callback indata w = (Ok tt, w).
Proof.
  intros Hstop. unfold AudioStream._audio_callback, bind, get.
  now rewrite Hstop.
Qed.

(** While the session runs, the callback is the push of the spectrum of
    channel 0. *)
Lemma callback_running (indata : Np.ndarray2) (samples : list R) (w : World) :
  aud_is_running w = true ->
  Np.column0 indata = Some samples ->
  AudioStream._audio_callback indata w
  = (Ok tt, snd (Producer.try_push (spectrum_of samples) w)).
Proof.
  intros Hrun Hcol.
  unfold AudioStream._audio_callback, Producer.try_push, bind, get,
    try_except, Queue.put_nowait.
  rewrite Hrun, Hcol. cbn [negb].
  destruct (Nat.leb Queue.maxsize (length (data_queue w))); reflexivity.
Qed.

Lemma callback_no_channel (indata : Np.ndarray2) (w : World) :
  aud_is_running w = true ->
  Np.column0 indata = None ->
  AudioStream._audio_callback indata w = (Raise IndexError, w).
Proof.
  intros Hrun Hcol.
  unfold AudioStream._audio_callback, bind, get, try_except, raise.
  now rewrite Hrun, Hcol.
Qed.

Lemma column0_some (indata : Np.ndarray2) :
  Np.shape1 indata <> 0%nat ->
  exists samples,
    Np.column0 indata = Some samples /\
    length samples = Np.shape0 indata.
Proof.
  intros Hch. unfold Np.column0.
  destruct (Nat.eqb_spec (Np.shape1 indata) 0) as [E|_]; [contradiction|].
  eexists. split; [reflexivity|]. now rewrite length_map, length_seq.
Qed.

End QueueFacts.

(** ** Mapping a frame to bar heights: lines 58-74 *)

Section BarMapping.

Import SpectrumVisualizer.

Lemma all_zero_true (a : list R) :
  Np.all_zero a = true <-> Forall (eq 0) a.
Proof.
  unfold Np.all_zero. rewrite forallb_forall, Forall_forall.
  split; intros H x Hx; specialize (H x Hx).
  - destruct (Req_dec_T x 0); [auto|discriminate].
  - destruct (Req_dec_T x 0); [reflexivity|congruence].
Qed.

Lemma fold_max_spec (a : list R) :
  forall acc : R,
    let p := fold_left (fun acc y => if Rlt_dec acc y then y else acc) a acc in
    (p = acc \/ In p a) /\ acc <= p /\ Forall (fun y => y <= p) a.
Proof.
  induction a as [|x a IH]; intros acc; simpl.
  - repeat split; auto; lra.
  - destruct (Rlt_dec acc x) as [Hlt|Hge].
    + destruct (IH x) as [Hin [Hle Hall]]. repeat split.
      * destruct Hin as [->|Hin]; auto.
      * lra.
      * constructor; auto.
    + destruct (IH acc) as [Hin [Hle Hall]]. repeat split.
      * destruct Hin as [->|Hin]; auto.
      * exact Hle.
      * constructor; auto. lra.
Qed.

(** [max] of a frame that is not empty is one of its values and bounds
    them all. *)
Lemma py_max_spec (a : list R) :
  a <> [] ->
  exists p, py_max a = Some p /\ In p a /\ Forall (fun y => y <= p) a.
Proof.
  destruct a as [|x a]; [congruence|intros _].
  destruct (fold_max_spec a x) as [Hin [Hle Hall]].
  eexists. split; [reflexivity|]. split.
  - destruct Hin as [->|Hin]; [now left|now right].
  - constructor; auto.
Qed.

Lemma py_max_positive (a : list R) :
  Forall (fun x => 0 <= x) a -> Np.all_zero a = false ->
  exists p, py_max a = Some p /\ 0 < p /\ In p a /\
            Forall (fun y => 0 <= y <= p) a.
Proof.
  intros Hpos Hnz.
  assert (Hne : a <> []) by (intros ->; discriminate).
  destruct (py_max_spec a Hne) as [p [Hp [Hin Hall]]].
  exists p. split; [exact Hp|]. split; [|split; [exact Hin|]].
  - destruct (Rlt_dec 0 p) as [|Hle]; [assumption|exfalso].
    assert (Hz : Forall (eq 0) a).
    { rewrite Forall_forall in *. intros x Hx.
      specialize (Hpos x Hx). specialize (Hall x Hx). simpl in *. lra. }
    apply all_zero_true in Hz. congruence.
  - rewrite Forall_forall in *. intros x Hx.
    specialize (Hpos x Hx). specialize (Hall x Hx). simpl in *. lra.
Qed.

Lemma scaled_bounds (x p : R) :
  0 <= x <= p -> 0 < p -> 0 <= x / p * max_height <= max_height.
Proof.
  intros [H0 Hp] Hpos. unfold max_height.
  assert (Hi : 0 < / p) by now apply Rinv_0_lt_compat.
  assert (Hone : p * / p = 1) by (field; lra).
  unfold Rdiv. split; nra.
Qed.

(** On [[0, p]] the two-point interpolation is the line through the
    origin, and the clip changes nothing. *)
Lemma interp1_linear (x p : R) :
  0 <= x <= p -> 0 < p ->
  Np.interp1 0 p 0 max_height x = x / p * max_height.
Proof.
  intros [H0 Hp] Hpos. unfold Np.interp1.
  destruct (Rlt_dec p x); [lra|].
  destruct (Rlt_dec x 0); [lra|].
  destruct (Rle_dec p x).
  - replace x with p by lra. field. lra.
  - destruct (Req_dec_T 0 x) as [<-|_]; field; lra.
Qed.

Lemma clip1_inside (lo hi x : R) :
  lo <= x <= hi -> Np.clip1 lo hi x = x.
Proof.
  intros [Hlo Hhi]. unfold Np.clip1, Rmin, Rmax.
  destruct (Rle_dec x lo); destruct (Rle_dec _ hi); lra.
Qed.

Lemma clip1_bounds (lo hi x : R) :
  lo <= hi -> lo <= Np.clip1 lo hi x <= hi.
Proof.
  intros Hle. unfold Np.clip1, Rmin, Rmax.
  destruct (Rle_dec x lo); destruct (Rle_dec _ hi); lra.
Qed.

Lemma rescale_linear (a : list R) (p : R) :
  py_max a = Some p -> 0 < p -> Forall (fun y => 0 <= y <= p) a ->
  rescale a = Some (map (fun x => x / p * max_height) a).
Proof.
  intros Hp Hpos Hall. unfold rescale. rewrite Hp. f_equal.
  unfold Np.clip, Np.interp. rewrite map_map.
  apply map_ext_in. intros x Hx.
  rewrite Forall_forall in Hall. specialize (Hall x Hx). simpl in Hall.
  rewrite interp1_linear by assumption.
  apply clip1_inside. now apply scaled_bounds.
Qed.

Lemma rescale_length (a hs : list R) :
  rescale a = Some hs -> length hs = length a.
Proof.
  unfold rescale. destruct (py_max a); [|discriminate].
  intros [= <-]. unfold Np.clip, Np.interp. now rewrite !length_map.
Qed.

Lemma rescale_some (a : list R) :
  a <> [] -> exists hs, rescale a = Some hs.
Proof.
  intros Hne. destruct (py_max_spec a Hne) as [p [Hp _]].
  unfold rescale. rewrite Hp. eauto.
Qed.

Lemma rescale_bounds (a hs : list R) :
  rescale a = Some hs -> Forall (fun h => 0 <= h <= max_height) hs.
Proof.
  unfold rescale. destruct (py_max a); [|discriminate].
  intros [= <-]. unfold Np.clip. apply Forall_forall. intros h Hh.
  apply in_map_iff in Hh. destruct Hh as [x [<- _]].
  apply clip1_bounds. unfold max_height. lra.
Qed.

End BarMapping.

(** ** Drawing on the canvas *)

Section Canvas.

Import SpectrumVisualizer.

Lemma set_canvas_same (w : World) : set_canvas (canvas w) w = w.
Proof. now destruct w. Qed.

Lemma list_set_middle {A} (pre : list A) (x y : A) (post : list A) :
  list_set (length pre) x (pre ++ y :: post) = pre ++ x :: post.
Proof. induction pre as [|z pre IH]; simpl; [reflexivity|now rewrite IH]. Qed.

Lemma canvas_frame_refl (w : World) : canvas_frame w w.
Proof. unfold canvas_frame. tauto. Qed.

Lemma canvas_frame_trans (w1 w2 w3 : World) :
  canvas_frame w1 w2 -> canvas_frame w2 w3 -> canvas_frame w1 w3.
Proof. unfold canvas_frame. intuition congruence. Qed.

Lemma canvas_coords_ok (i : nat) (r : rect) (w : World) :
  faults w = [] ->
  canvas_coords i r w = (Ok tt, set_canvas (list_set i r (canvas w)) w).
Proof.
  intros Hf. unfold canvas_coords, bind, ext_call, modify. now rewrite Hf.
Qed.

(** Without a fault the loop of lines 70-74 rewrites the rectangles of
    the bars it goes through and nothing else. *)
Lemma draw_bars_ok (hs : list R) (n : nat) :
  forall (a : nat) (w : World) (pre old post : list rect),
    faults w = [] ->
    canvas w = pre ++ old ++ post ->
    length pre = a -> length old = n ->
    (a + n <= length hs)%nat ->
    draw_bars hs (seq a n) w
    = (Ok tt,
       set_canvas
         (pre ++ map (fun i => bar_rect i (nth i hs 0)) (seq a n) ++ post) w).
Proof.
  induction n as [|n IH]; intros a w pre old post Hf Hc Hpre Hold Hlen.
  - destruct old; [|discriminate]. simpl in *.
    now rewrite <- Hc, set_canvas_same.
  - destruct old as [|r old]; [discriminate|].
    cbn [seq draw_bars].
    rewrite (nth_error_nth' hs 0) by lia.
    unfold bind at 1. rewrite canvas_coords_ok by assumption.
    rewrite Hc, <- Hpre. cbn [app]. rewrite list_set_middle.
    rewrite (IH (S (length pre)) _ (pre ++ [bar_rect (length pre)
                                              (nth (length pre) hs 0)])
                old post).
    + cbn [map app]. rewrite <- app_assoc. reflexivity.
    + exact Hf.
    + cbn [canvas set_canvas]. now rewrite <- app_assoc.
    + rewrite length_app. simpl. lia.
    + now injection Hold.
    + lia.
Qed.

(** Without a fault the loop of lines 59-63 collapses the bars it goes
    through. *)
Lemma collapse_bars_ok (n : nat) :
  forall (a : nat) (w : World) (pre old post : list rect),
    faults w = [] ->
    canvas w = pre ++ old ++ post ->
    length pre = a -> length old = n ->
    collapse_bars (seq a n) w
    = (Ok tt, set_canvas (pre ++ repeat (mk_rect 0 0 0 0) n ++ post) w).
Proof.
  induction n as [|n IH]; intros a w pre old post Hf Hc Hpre Hold.
  - destruct old; [|discriminate]. simpl in *.
    now rewrite <- Hc, set_canvas_same.
  - destruct old as [|r old]; [discriminate|].
    cbn [seq collapse_bars].
    unfold bind at 1, try_except, bind at 1.
    rewrite canvas_coords_ok by assumption. cbn [ret].
    rewrite Hc, <- Hpre. cbn [app]. rewrite list_set_middle.
    rewrite (IH (S (length pre)) _ (pre ++ [mk_rect 0 0 0 0]) old post).
    + cbn [repeat app]. rewrite <- app_assoc. reflexivity.
    + exact Hf.
    + cbn [canvas set_canvas]. now rewrite <- app_assoc.
    + rewrite length_app. simpl. lia.
    + now injection Hold.
Qed.

(** A fault among the calls of the loop of lines 70-74 ends it with
    [TclError]. *)
Lemma draw_bars_fault (hs : list R) (n : nat) :
  forall (a : nat) (w : World),
    In true (firstn n (faults w)) ->
    (a + n <= length hs)%nat ->
    fst (draw_bars hs (seq a n) w) = Raise TclError.
Proof.
  induction n as [|n IH]; intros a w Hin Hlen; [contradiction|].
  cbn [seq draw_bars].
  rewrite (nth_error_nth' hs 0) by lia.
  unfold bind at 1, canvas_coords, bind at 1, ext_call, modify.
  destruct (faults w) as [|[|] fs] eqn:Hf; [contradiction|reflexivity|].
  apply IH; [|lia]. cbn [faults set_canvas set_faults].
  destruct Hin as [Hin|Hin]; [discriminate|exact Hin].
Qed.

(** A fault among the calls of the loop of lines 59-63 ends
    [update_bars] without an exception. *)
Lemma collapse_bars_total (bars : list nat) (w : World) :
  fst (collapse_bars bars w) = Ok tt.
Proof.
  revert w. induction bars as [|bar rest IH]; intros w; [reflexivity|].
  cbn [collapse_bars].
  unfold bind at 1, try_except, bind at 1, canvas_coords, bind at 1,
    ext_call, modify.
  destruct (faults w) as [|[|] fs]; cbn [ret]; auto.
Qed.

Lemma draw_bars_frame (hs : list R) (bars : list nat) (w : World) :
  canvas_frame w (snd (draw_bars hs bars w)).
Proof.
  apply (preserves_draw_bars canvas_frame canvas_frame_refl
           canvas_frame_trans);
    intros; unfold canvas_frame; simpl; tauto.
Qed.

Lemma collapse_bars_frame (bars : list nat) (w : World) :
  canvas_frame w (snd (collapse_bars bars w)).
Proof.
  apply (preserves_collapse_bars canvas_frame canvas_frame_refl
           canvas_frame_trans);
    intros; unfold canvas_frame; simpl; tauto.
Qed.

Lemma map_nth_seq (l : list R) :
  map (fun i => nth i l 0) (seq 0 (length l)) = l.
Proof.
  induction l as [|x l IH]; [reflexivity|].
  cbn [length seq map nth]. f_equal.
  rewrite <- seq_shift, map_map. exact IH.
Qed.

Lemma bar_height_bar_rect (i : nat) (v : R) : bar_height (bar_rect i v) = v.
Proof. unfold bar_height, bar_rect. simpl. ring. Qed.

(** The three ways [update_bars] goes when the visualizer runs and no
    call into Tk fails. *)
Lemma update_bars_zero (spectrum : list R) (w : World) :
  vis_is_running w = true -> faults w = [] ->
  length (canvas w) = NUM_BARS ->
  Np.all_zero spectrum = true ->
  update_bars spectrum w
  = (Ok tt, set_canvas (repeat (mk_rect 0 0 0 0) NUM_BARS) w).
Proof.
  intros Hrun Hf Hc Hz. unfold update_bars, bind, get.
  rewrite Hrun, Hz. cbn [negb].
  rewrite (collapse_bars_ok NUM_BARS 0 w [] (canvas w) []);
    cbn [app]; rewrite ?app_nil_r; auto.
Qed.

Lemma update_bars_draw (spectrum hs : list R) (w : World) :
  vis_is_running w = true -> faults w = [] ->
  length (canvas w) = NUM_BARS -> length spectrum = NUM_BARS ->
  Np.all_zero spectrum = false ->
  rescale spectrum = Some hs ->
  update_bars spectrum w
  = (Ok tt,
     set_canvas (map (fun i => bar_rect i (nth i hs 0)) (seq 0 NUM_BARS)) w).
Proof.
  intros Hrun Hf Hc Hlen Hnz Hhs. unfold update_bars, bind, get.
  rewrite Hrun, Hnz. cbn [negb]. unfold try_except. rewrite Hhs.
  rewrite (draw_bars_ok hs NUM_BARS 0 w [] (canvas w) []);
    cbn [app]; rewrite ?app_nil_r; auto.
  rewrite (rescale_length _ _ Hhs), Hlen. simpl. lia.
Qed.

End Canvas.

(** ** Stopping the audio stream: lines 109-117 *)

Section AudioStop.

(** One call of [AudioStream.stop], whatever the stream and the fault
    schedule are. *)
Lemma audio_stop_spec (w : World) :
  exists w1,
    AudioStream.stop w = (Ok tt, w1) /\
    aud_is_running w1 = false /\
    (stream w = None -> w1 = set_aud_is_running false w) /\
    (faults w = [] -> stream w <> None ->
     w1 = set_stream (Some StreamClosed) (set_aud_is_running false w)) /\
    (stream w = Some StreamClosed -> stream w1 = Some StreamClosed) /\
    ((stdout w1 = stdout w /\
      (stream w = None \/ stream w1 = Some StreamClosed)) \/
     stdout w1 = stdout w ++ [close_message]).
Proof.
  destruct w as [app q vis cv aud st tm out fl].
  unfold AudioStream.stop, AudioStream.stream_active,
    AudioStream.stream_stop, AudioStream.stream_close, try_except, bind,
    modify, get, ext_call, print, ret.
  destruct st as [[| |]|]; cbn;
    destruct fl as [|[|] [|[|] [|[|] fl]]]; cbn;
    (eexists; split; [reflexivity|]);
    cbn; unfold close_message; intuition congruence.
Qed.

End AudioStop.

(** ** The lifecycle flags *)

Section Lifecycle.

Lemma flags_mono_refl (w : World) : flags_mono w w.
Proof. unfold flags_mono. tauto. Qed.

Lemma flags_mono_trans (w1 w2 w3 : World) :
  flags_mono w1 w2 -> flags_mono w2 w3 -> flags_mono w1 w3.
Proof. unfold flags_mono. tauto. Qed.

(** No operation sets a flag back to [true]. *)
Lemma step_flags_mono (o : operation) (w : World) : flags_mono w (step o w).
Proof.
  apply (preserves_perform flags_mono flags_mono_refl flags_mono_trans);
    intros; unfold flags_mono; simpl; tauto.
Qed.

(** Only the stop operations change the flag of [Application]. *)
Lemma step_other_keeps_app (o : operation) (w : World) :
  is_stop o = false -> app_is_running (step o w) = app_is_running w.
Proof.
  intros Hstop.
  apply (preserves_perform_other
           (fun w w' => app_is_running w' = app_is_running w));
    intros; simpl; congruence.
Qed.

Lemma bind_ok {A B} (m : M A) (k : A -> M B) (w w1 : World) (a : A) :
  m w = (Ok a, w1) -> bind m k w = k a w1.
Proof. intros H. unfold bind. now rewrite H. Qed.

(** [Application.stop] leaves the three flags false. *)
Lemma stop_flags (w : World) :
  let w' := snd (Application.stop w) in
  app_is_running w' = false /\ vis_is_running w' = false /\
  aud_is_running w' = false.
Proof.
  unfold Application.stop, SpectrumVisualizer.stop.
  rewrite (bind_ok _ _ w (set_app_is_running false w) tt) by reflexivity.
  set (w2 := set_vis_is_running false (set_app_is_running false w)).
  rewrite (bind_ok _ _ _ w2 tt) by reflexivity.
  destruct (audio_stop_spec w2) as [w3 [Hstop [Haud _]]].
  rewrite (bind_ok _ _ _ w3 tt Hstop).
  assert (H23 : flags_mono w2 w3).
  { replace w3 with (snd (AudioStream.stop w2)) by now rewrite Hstop.
    apply (preserves_audio_stop flags_mono flags_mono_refl
             flags_mono_trans);
      intros; unfold flags_mono; simpl; tauto. }
  pose proof (preserves_stop_tail flags_mono flags_mono_refl
                flags_mono_trans) as Htail.
  specialize (Htail ltac:(intros; unfold flags_mono; simpl; tauto)
                    ltac:(intros; unfold flags_mono; simpl; tauto)
                    ltac:(intros; unfold flags_mono; simpl; tauto)
                    w3).
  destruct H23 as [Ha [Hv _]]. destruct Htail as [Ha' [Hv' Hu']].
  cbv zeta. repeat split; auto.
Qed.

Lemma step_stop_flags (o : operation) (w : World) :
  is_stop o = true ->
  app_is_running (step o w) = false /\
  vis_is_running (step o w) = false /\
  aud_is_running (step o w) = false.
Proof.
  destruct o; try discriminate; intros _; unfold step; simpl.
  - apply stop_flags.
  - unfold Application.signal_handler, bind at 1, print, modify.
    apply stop_flags.
Qed.

Section OneFlag.

Variable flag : World -> bool.
Hypothesis flag_mono :
  forall o w, flag w = false -> flag (step o w) = false.

Lemma trace_stays_false (ops : list operation) :
  forall w : World,
    flag w = false ->
    map flag (trace ops w) = repeat false (S (length ops)).
Proof.
  induction ops as [|o ops IH]; intros w Hw; simpl.
  - now rewrite Hw.
  - rewrite Hw. f_equal. apply (IH (step o w)). now apply flag_mono.
Qed.

Lemma trace_falls_once (ops : list operation) :
  forall w : World, falls_once (map flag (trace ops w)).
Proof.
  induction ops as [|o ops IH]; intros w.
  - simpl. destruct (flag w).
    + now exists 1%nat, 0%nat.
    + now exists 0%nat, 1%nat.
  - destruct (flag w) eqn:Hw.
    + destruct (IH (step o w)) as [n [m Hnm]].
      exists (S n), m. cbn [trace map]. rewrite Hw.
      cbn [repeat app]. f_equal. exact Hnm.
    + exists 0%nat, (S (length (o :: ops))).
      now apply trace_stays_false.
Qed.

End OneFlag.

(** What a stopped program does when its callbacks still fire. *)
Lemma process_queue_stopped (w : World) :
  app_is_running w = false -> Application.process_queue w = (Ok tt, w).
Proof.
  intros Hstop. unfold Application.process_queue, bind, get.
  now rewrite Hstop.
Qed.

Lemma update_bars_stopped (spectrum : list R) (w : World) :
  vis_is_running w = false ->
  SpectrumVisualizer.update_bars spectrum w = (Ok tt, w).
Proof.
  intros Hstop. unfold SpectrumVisualizer.update_bars, bind, get.
  now rewrite Hstop.
Qed.

End Lifecycle.

(** ** The render path: a fault while drawing, and the loop of lines 142-144 *)

Section RenderPath.

Import SpectrumVisualizer.

Lemma update_bars_frame_queue (spectrum : list R) (w : World) :
  data_queue (snd (update_bars spectrum w)) = data_queue w /\
  app_is_running (snd (update_bars spectrum w)) = app_is_running w.
Proof.
  apply (preserves_update_bars
           (fun w w' => data_queue w' = data_queue w /\
                        app_is_running w' = app_is_running w));
    try (intros; simpl; tauto).
  intros w1 w2 w3 [H1 H2] [H3 H4]. split; congruence.
Qed.

(** A fault among the calls of one update: no exception leaves
    [update_bars], nothing is printed, and the flag of the visualizer
    falls in the branch of lines 66-77 only. *)
Lemma update_bars_fault (spectrum : list R) (w : World) :
  vis_is_running w = true ->
  length spectrum = NUM_BARS ->
  In true (firstn NUM_BARS (faults w)) ->
  exists w',
    update_bars spectrum w = (Ok tt, w') /\
    stdout w' = stdout w /\
    app_is_running w' = app_is_running w /\
    aud_is_running w' = aud_is_running w /\
    data_queue w' = data_queue w /\
    stream w' = stream w /\
    vis_is_running w' = Np.all_zero spectrum.
Proof.
  intros Hrun Hlen Hin. unfold update_bars, bind, get. rewrite Hrun.
  cbn [negb]. destruct (Np.all_zero spectrum) eqn:Hz.
  - pose proof (collapse_bars_total (seq 0 NUM_BARS) w) as Hok.
    pose proof (collapse_bars_frame (seq 0 NUM_BARS) w) as Hfr.
    destruct (collapse_bars (seq 0 NUM_BARS) w) as [r w'].
    simpl in Hok, Hfr. subst r. exists w'.
    unfold canvas_frame in Hfr. intuition congruence.
  - assert (Hne : spectrum <> []) by (intros ->; discriminate).
    destruct (rescale_some spectrum Hne) as [hs Hhs].
    unfold try_except. rewrite Hhs.
    assert (Hraise : fst (draw_bars hs (seq 0 NUM_BARS) w) = Raise TclError).
    { apply draw_bars_fault; [exact Hin|].
      rewrite (rescale_length _ _ Hhs), Hlen. simpl. lia. }
    pose proof (draw_bars_frame hs (seq 0 NUM_BARS) w) as Hfr.
    destruct (draw_bars hs (seq 0 NUM_BARS) w) as [r w'].
    simpl in Hraise, Hfr. subst r.
    exists (set_vis_is_running false w').
    unfold canvas_frame in Hfr. simpl. intuition congruence.
Qed.

(** The loop of [process_queue] stops on its own condition, not for
    want of fuel: when it completes, the queue is empty or the
    application no longer runs. *)
Lemma drain_loop_complete (fuel : nat) :
  forall w w' : World,
    (length (data_queue w) <= fuel)%nat ->
    Application.drain_loop fuel w = (Ok tt, w') ->
    data_queue w' = [] \/ app_is_running w' = false.
Proof.
  induction fuel as [|fuel IH]; intros w w' Hlen Hrun.
  - simpl in Hrun. injection Hrun as <-. left.
    destruct (data_queue w); [reflexivity|simpl in Hlen; lia].
  - cbn [Application.drain_loop] in Hrun.
    unfold bind at 1, Queue.empty, get in Hrun.
    unfold bind at 1, get in Hrun.
    destruct (data_queue w) as [|frame rest] eqn:Hq.
    + simpl in Hrun. injection Hrun as <-. now left.
    + cbn [length Nat.eqb negb andb] in Hrun.
      destruct (app_is_running w) eqn:Happ.
      * unfold bind at 1, Queue.get_nowait in Hrun. rewrite Hq in Hrun.
        unfold bind at 1 in Hrun.
        pose proof (update_bars_frame_queue frame (set_data_queue rest w))
          as [Hsame _].
        destruct (update_bars frame (set_data_queue rest w)) as [[[]|e] w1];
          [|discriminate].
        simpl in Hsame. apply (IH w1 w'); [|exact Hrun].
        rewrite Hsame. simpl in Hlen. lia.
      * simpl in Hrun. injection Hrun as <-. now right.
Qed.

End RenderPath.

(** * The properties of the specification *)

(** Claim C1.  Every magnitude of the frame the transform stage produces
    is 0 or is above [NOISE_THRESHOLD] (0.05): a magnitude of the FFT at
    or below the threshold is replaced by 0, and a magnitude above it
    passes through unchanged. *)
Theorem noise_gate_zero_or_above (samples : list R) :
  Forall2 (fun raw m =>
             (raw <= NOISE_THRESHOLD /\ m = 0) \/
             (NOISE_THRESHOLD < raw /\ m = raw))
          (firstn NUM_BARS (fft_magnitudes samples)) (spectrum_of samples)
  /\ Forall (fun m => m = 0 \/ NOISE_THRESHOLD < m) (spectrum_of samples).
Proof.
  split; [apply where_gt_pointwise|apply where_gt_gated].
Qed.

(** Claim C4.  For an all-zero frame of [WINDOW_SIZE] samples the
    transform stage produces the all-zero spectrum frame. *)
Theorem silence_gives_zero_frame (samples : list R) :
  length samples = WINDOW_SIZE ->
  Forall (eq 0) samples ->
  spectrum_of samples = repeat 0 NUM_BARS.
Proof.
  intros _ Hz.
  assert (Hall : Forall (eq 0) (spectrum_of samples)).
  { unfold spectrum_of. apply where_gt_zero, Forall_take.
    now apply fft_magnitudes_zero. }
  rewrite <- (spectrum_of_length samples). now apply all_zero_repeat.
Qed.

Lemma silence_gives_zero_frame_witness :
  spectrum_of (repeat 0 WINDOW_SIZE) = repeat 0 NUM_BARS.
Proof.
  apply (silence_gives_zero_frame (repeat 0 WINDOW_SIZE)).
  - apply repeat_length.
  - apply Forall_forall. intros x Hx. symmetry. exact (repeat_spec _ _ _ Hx).
Defined.

(** Claim C10.  Whatever the number of frames of the buffer the callback
    receives, the spectrum frame it produces has exactly [NUM_BARS] (60)
    elements: the transform has the fixed length [WINDOW_SIZE], which
    pads or crops the channel-0 samples, and its 513 bins are cut to the
    first [NUM_BARS]. *)
Theorem callback_frame_has_num_bars (indata : Np.ndarray2) (w : World) :
  Np.shape1 indata <> 0%nat ->
  aud_is_running w = true ->
  exists samples,
    Np.column0 indata = Some samples /\
    length samples = Np.shape0 indata /\
    length (Np.resize WINDOW_SIZE samples) = WINDOW_SIZE /\
    length (Np.rfft samples WINDOW_SIZE) = 513%nat /\
    length (spectrum_of samples) = NUM_BARS /\
    AudioStream._audio_callback indata w
    = (Ok tt,
       if Nat.leb Queue.maxsize (length (data_queue w)) then w
       else set_data_queue (data_queue w ++ [spectrum_of samples]) w).
Proof.
  intros Hch Hrun. destruct (column0_some indata Hch) as [samples [Hcol Hlen]].
  exists samples.
  split; [exact Hcol|]. split; [exact Hlen|].
  split; [apply resize_length|].
  split; [rewrite rfft_length; now vm_compute|].
  split; [apply spectrum_of_length|].
  rewrite (callback_running indata samples w Hrun Hcol). f_equal.
  destruct (Nat.leb_spec Queue.maxsize (length (data_queue w))).
  - now rewrite try_push_full.
  - now rewrite try_push_room.
Qed.

Lemma callback_frame_has_num_bars_witness :
  exists samples,
    length samples = 3%nat /\ length (spectrum_of samples) = NUM_BARS.
Proof.
  destruct (callback_frame_has_num_bars
              (Np.mk_ndarray2 3 2 (fun _ _ => 1)) (Application.init []))
    as [samples [_ [Hlen [_ [_ [Hbars _]]]]]].
  - simpl. discriminate.
  - reflexivity.
  - exists samples. split; [exact Hlen|exact Hbars].
Defined.

(** Claim C7.  A callback that comes after the capture session was marked
    stopped returns at once and touches nothing: the queue and the rest
    of the state are as before, and no frame is pushed. *)
Theorem callback_after_stop_is_noop (indata : Np.ndarray2) (w : World) :
  aud_is_running w = false ->
  AudioStream._audio_callback indata w = (Ok tt, w).
Proof. apply callback_stopped. Qed.

Lemma callback_after_stop_is_noop_witness :
  let w := set_aud_is_running false (Application.init []) in
  AudioStream._audio_callback (Np.mk_ndarray2 3 2 (fun _ _ => 1)) w = (Ok tt, w).
Proof.
  intros w.
  apply (callback_after_stop_is_noop (Np.mk_ndarray2 3 2 (fun _ _ => 1)) w).
  reflexivity.
Defined.

(** Claim C2.  Pushing more frames than the queue of capacity 100 holds,
    without a read in between, keeps exactly the first 100: the number of
    dropped frames is the overflow, each frame that arrives at the full
    queue is the one that is dropped, no push raises or waits, and the
    reads give the kept frames in the order they were pushed.  With one
    frame of overflow this is the case of capacity + 1 frames. *)
Theorem queue_drops_newest_keeps_fifo
        (w : World) (frames : list (list R)) (overflow : nat) :
  data_queue w = [] ->
  length frames = (Queue.maxsize + overflow)%nat ->
  exists w1 w2,
    Producer.push_all frames w = (Ok overflow, w1) /\
    data_queue w1 = firstn Queue.maxsize frames /\
    length (data_queue w1) = Queue.maxsize /\
    (forall frame, Producer.try_push frame w1 = (Ok false, w1)) /\
    Consumer.pop_all (length (data_queue w1)) w1
    = (Ok (firstn Queue.maxsize frames), w2) /\
    data_queue w2 = [].
Proof.
  intros Hq Hlen.
  pose proof (push_all_spec frames w Queue.maxsize) as Hpush.
  rewrite Hq in Hpush. specialize (Hpush eq_refl). cbn [app] in Hpush.
  set (w1 := set_data_queue (firstn Queue.maxsize frames) w) in *.
  assert (Hfull : length (data_queue w1) = Queue.maxsize).
  { subst w1. cbn [data_queue set_data_queue].
    rewrite length_firstn, Hlen. lia. }
  exists w1, (set_data_queue [] w1). repeat split.
  - rewrite Hpush. do 2 f_equal. lia.
  - exact Hfull.
  - intros frame. apply try_push_full. lia.
  - now apply pop_all_spec.
Qed.

Lemma queue_drops_newest_keeps_fifo_witness :
  let frames := map (fun i => [INR i]) (seq 0 101) in
  exists w1 w2,
    Producer.push_all frames (Application.init []) = (Ok 1%nat, w1) /\
    data_queue w1 = removelast frames /\
    Consumer.pop_all 100 w1 = (Ok (removelast frames), w2).
Proof.
  intros frames.
  destruct (queue_drops_newest_keeps_fifo (Application.init []) frames 1)
    as [w1 [w2 [Hpush [Hq [Hlen [_ [Hpop _]]]]]]].
  - reflexivity.
  - reflexivity.
  - exists w1, w2. rewrite Hlen in Hpop. repeat split; assumption.
Defined.

(** Claim C5.  No exception leaves the audio callback, on any buffer the
    stream hands it (the stream is opened with two channels; the theorem
    asks for one at least): the callback returns normally, having queued
    the frame of the buffer or left the state as it was; the error that
    arises inside it, [queue.Full] from the full queue, is caught there
    and comes down to dropping that frame. *)
Theorem callback_contains_queue_full (indata : Np.ndarray2) (w : World) :
  Np.shape1 indata <> 0%nat ->
  exists w',
    AudioStream._audio_callback indata w = (Ok tt, w') /\
    (w' = w \/
     exists samples,
       Np.column0 indata = Some samples /\
       w' = set_data_queue (data_queue w ++ [spectrum_of samples]) w) /\
    ((Queue.maxsize <= length (data_queue w))%nat ->
     (forall frame, Queue.put_nowait frame w = (Raise QueueFull, w)) /\
     w' = w).
Proof.
  intros Hch. destruct (column0_some indata Hch) as [samples [Hcol _]].
  assert (Hput : (Queue.maxsize <= length (data_queue w))%nat ->
                 forall frame, Queue.put_nowait frame w = (Raise QueueFull, w)).
  { intros Hfull frame. unfold Queue.put_nowait.
    destruct (Nat.leb_spec Queue.maxsize (length (data_queue w)));
      [reflexivity|lia]. }
  destruct (aud_is_running w) eqn:Hrun.
  - rewrite (callback_running indata samples w Hrun Hcol).
    eexists. split; [reflexivity|]. split.
    + destruct (Nat.leb_spec Queue.maxsize (length (data_queue w))).
      * left. now rewrite try_push_full.
      * right. exists samples. split; [exact Hcol|].
        now rewrite try_push_room.
    + intros Hfull. split; [now apply Hput|]. now rewrite try_push_full.
  - rewrite (callback_stopped indata w Hrun).
    eexists. split; [reflexivity|]. split; [now left|].
    intros Hfull. split; [now apply Hput|reflexivity].
Qed.

Lemma callback_contains_queue_full_witness :
  let w := set_data_queue (repeat [] Queue.maxsize) (Application.init []) in
  AudioStream._audio_callback (Np.mk_ndarray2 3 2 (fun _ _ => 1)) w = (Ok tt, w).
Proof.
  intros w.
  destruct (callback_contains_queue_full
              (Np.mk_ndarray2 3 2 (fun _ _ => 1)) w) as [w' [Hcall [_ Hfull]]].
  - simpl. discriminate.
  - destruct Hfull as [_ Hsame].
    + vm_compute. lia.
    + rewrite Hcall, Hsame. reflexivity.
Defined.

(** Claim C8, as amended.  When a canvas operation fails with [TclError]
    during [update_bars], no exception leaves [update_bars], the
    application and the audio session are left as they were, and nothing
    is printed; when the frame being drawn is not all zero, the
    visualizer is marked stopped. *)
Theorem canvas_fault_stops_visualizer_quietly (spectrum : list R) (w : World) :
  vis_is_running w = true ->
  length spectrum = NUM_BARS ->
  In true (firstn NUM_BARS (faults w)) ->
  exists w',
    SpectrumVisualizer.update_bars spectrum w = (Ok tt, w') /\
    stdout w' = stdout w /\
    app_is_running w' = app_is_running w /\
    aud_is_running w' = aud_is_running w /\
    data_queue w' = data_queue w /\
    (Np.all_zero spectrum = false -> vis_is_running w' = false).
Proof.
  intros Hrun Hlen Hin.
  destruct (update_bars_fault spectrum w Hrun Hlen Hin)
    as [w' [Hup [Hout [Happ [Haud [Hq [_ Hvis]]]]]]].
  exists w'. repeat split; auto. intros Hnz. congruence.
Qed.

Lemma one_is_not_zero_frame : Np.all_zero (1 :: repeat 0 59) = false.
Proof.
  destruct (Np.all_zero (1 :: repeat 0 59)) eqn:Hz; [|reflexivity].
  apply all_zero_true in Hz. inversion Hz; lra.
Qed.

Lemma canvas_fault_stops_visualizer_quietly_witness :
  exists w',
    SpectrumVisualizer.update_bars (1 :: repeat 0 59) (Application.init [true])
    = (Ok tt, w') /\
    stdout w' = [] /\ vis_is_running w' = false.
Proof.
  destruct (canvas_fault_stops_visualizer_quietly
              (1 :: repeat 0 59) (Application.init [true]))
    as [w' [Hup [Hout [_ [_ [_ Hvis]]]]]].
  - reflexivity.
  - reflexivity.
  - simpl. now left.
  - exists w'. split; [exact Hup|]. split; [exact Hout|].
    apply Hvis. apply one_is_not_zero_frame.
Defined.

(** Claim C8 as stated fails.  With the display surface gone, the update
    of a frame that is not all zero prints nothing, and the update of an
    all-zero frame prints nothing and leaves the visualizer running. *)
Lemma canvas_fault_is_not_logged :
  let w := Application.init [true] in
  (exists w',
      SpectrumVisualizer.update_bars (1 :: repeat 0 59) w = (Ok tt, w') /\
      vis_is_running w' = false /\ stdout w' = stdout w)
  /\
  (exists w',
      SpectrumVisualizer.update_bars (repeat 0 60) w = (Ok tt, w') /\
      vis_is_running w' = true /\ stdout w' = stdout w)
  /\
  ~ (exists w',
        SpectrumVisualizer.update_bars (1 :: repeat 0 59) w = (Ok tt, w') /\
        vis_is_running w' = false /\
        length (stdout w') = S (length (stdout w)))
  /\
  ~ (exists w',
        SpectrumVisualizer.update_bars (repeat 0 60) w = (Ok tt, w') /\
        vis_is_running w' = false /\
        length (stdout w') = S (length (stdout w))).
Proof.
  intros w.
  assert (Hin : In true (firstn NUM_BARS (faults w))) by (simpl; now left).
  destruct (update_bars_fault (1 :: repeat 0 59) w eq_refl eq_refl Hin)
    as [w1 [Hup1 [Hout1 [_ [_ [_ [_ Hvis1]]]]]]].
  destruct (update_bars_fault (repeat 0 60) w eq_refl eq_refl Hin)
    as [w2 [Hup2 [Hout2 [_ [_ [_ [_ Hvis2]]]]]]].
  rewrite one_is_not_zero_frame in Hvis1.
  assert (Hz : Np.all_zero (repeat 0 60) = true).
  { apply all_zero_true, Forall_forall. intros x Hx.
    symmetry. exact (repeat_spec _ _ _ Hx). }
  rewrite Hz in Hvis2.
  split; [exists w1; auto|]. split; [exists w2; auto|].
  split; intros [w' [Hup [Hvis Hlog]]].
  - rewrite Hup in Hup1. injection Hup1 as <-.
    rewrite Hout1 in Hlog. simpl in Hlog. discriminate.
  - rewrite Hup in Hup2. injection Hup2 as <-. congruence.
Qed.

(** Claim C3.  [update_bars] on a spectrum frame (60 values, none
    negative) with the visualizer running and Tk answering: when the
    frame is not all zero the heights of the bars are its values rescaled
    linearly from [[0, max(frame)]] to [[0, 400]], so the peak of the
    frame has height exactly 400 and every height is in [[0, 400]]; when
    the frame is all zero every bar has height 0. *)
Theorem bars_rescaled_to_full_height (spectrum : list R) (w : World) :
  vis_is_running w = true ->
  faults w = [] ->
  length (canvas w) = NUM_BARS ->
  length spectrum = NUM_BARS ->
  Forall (fun x => 0 <= x) spectrum ->
  exists w',
    SpectrumVisualizer.update_bars spectrum w = (Ok tt, w') /\
    let heights := map bar_height (canvas w') in
    length heights = NUM_BARS /\
    Forall (fun h => 0 <= h <= SpectrumVisualizer.max_height) heights /\
    (Forall (eq 0) spectrum -> heights = repeat 0 NUM_BARS) /\
    (~ Forall (eq 0) spectrum ->
     exists peak i,
       0 < peak /\
       Forall (fun x => x <= peak) spectrum /\
       nth_error spectrum i = Some peak /\
       heights
       = map (fun x => x / peak * SpectrumVisualizer.max_height) spectrum /\
       nth_error heights i = Some SpectrumVisualizer.max_height).
Proof.
  intros Hrun Hf Hc Hlen Hpos.
  destruct (Np.all_zero spectrum) eqn:Hz.
  - assert (Hzero : Forall (eq 0) spectrum) by now apply all_zero_true.
    rewrite (update_bars_zero spectrum w Hrun Hf Hc Hz).
    eexists. split; [reflexivity|].
    cbn [canvas set_canvas].
    assert (Hh : map bar_height (repeat (mk_rect 0 0 0 0) NUM_BARS)
                 = repeat 0 NUM_BARS).
    { rewrite map_repeat. f_equal. unfold bar_height. simpl. ring. }
    cbv zeta. rewrite Hh. split; [apply repeat_length|]. split.
    + apply Forall_forall. intros h Hin. apply repeat_spec in Hin. subst h.
      unfold SpectrumVisualizer.max_height. lra.
    + split; [reflexivity|]. intros Hnz. contradiction.
  - assert (Hnot : ~ Forall (eq 0) spectrum).
    { intros Hzero. apply all_zero_true in Hzero. congruence. }
    destruct (py_max_positive spectrum Hpos Hz) as [peak [Hp [Hgt [Hin Hall]]]].
    pose proof (rescale_linear spectrum peak Hp Hgt Hall) as Hhs.
    rewrite (update_bars_draw spectrum _ w Hrun Hf Hc Hlen Hz Hhs).
    eexists. split; [reflexivity|].
    cbn [canvas set_canvas].
    set (hs := map (fun x => x / peak * SpectrumVisualizer.max_height)
                   spectrum) in *.
    assert (Hhl : length hs = NUM_BARS)
      by (subst hs; now rewrite length_map).
    assert (Hh : map bar_height
                   (map (fun i => SpectrumVisualizer.bar_rect i (nth i hs 0))
                        (seq 0 NUM_BARS))
                 = hs).
    { rewrite map_map. rewrite <- Hhl.
      rewrite <- (map_nth_seq hs) at 2.
      apply map_ext. intros i. apply bar_height_bar_rect. }
    cbv zeta. rewrite Hh. split; [exact Hhl|]. split.
    + apply (rescale_bounds spectrum hs Hhs).
    + split; [intros Hzero; contradiction|]. intros _.
      apply In_nth_error in Hin. destruct Hin as [i Hi].
      exists peak, i.
      split; [exact Hgt|]. split.
      * rewrite Forall_forall in *. intros x Hx. now apply Hall.
      * split; [exact Hi|]. split; [reflexivity|].
        subst hs. rewrite (map_nth_error _ _ _ Hi). f_equal.
        unfold SpectrumVisualizer.max_height. field. lra.
Qed.

Lemma bars_rescaled_to_full_height_witness :
  exists w',
    SpectrumVisualizer.update_bars (2 :: repeat 1 59) (Application.init [])
    = (Ok tt, w') /\
    nth_error (map bar_height (canvas w')) 0 = Some 400 /\
    nth_error (map bar_height (canvas w')) 1 = Some 200.
Proof.
  destruct (bars_rescaled_to_full_height
              (2 :: repeat 1 59) (Application.init []))
    as [w' [Hup [_ [_ [_ Hscaled]]]]].
  - reflexivity.
  - reflexivity.
  - reflexivity.
  - reflexivity.
  - constructor; [lra|]. apply Forall_forall. intros x Hx.
    apply repeat_spec in Hx. subst x. lra.
  - exists w'. split; [exact Hup|].
    destruct Hscaled as [peak [i [Hgt [Hmax [Hi [Hheights _]]]]]].
    { intros Hzero. inversion Hzero; lra. }
    assert (Hpeak : peak = 2).
    { apply nth_error_In in Hi. destruct Hi as [Hi|Hi].
      - now symmetry.
      - apply repeat_spec in Hi. subst peak.
        inversion Hmax; lra. }
    subst peak. rewrite Hheights. cbn [repeat map nth_error].
    unfold SpectrumVisualizer.max_height. split; f_equal; lra.
Defined.

(** Claim C6, as amended.  Whatever the state, a first and a second call
    of [AudioStream.stop] both return without raising and leave the
    running flag false; a failure of a call into the stream is printed,
    not propagated.  On a session that was never started the call only
    clears the flag.  When the stream calls do not fail the first call
    leaves the stream closed and the second call changes nothing; and a
    stream once closed is still closed after another call. *)
Theorem audio_stop_idempotent (w : World) :
  exists w1 w2,
    AudioStream.stop w = (Ok tt, w1) /\
    AudioStream.stop w1 = (Ok tt, w2) /\
    aud_is_running w1 = false /\
    aud_is_running w2 = false /\
    (stream w = None -> w1 = set_aud_is_running false w /\ w2 = w1) /\
    (faults w = [] ->
     (stream w <> None -> stream w1 = Some StreamClosed) /\ w2 = w1) /\
    (stream w1 = Some StreamClosed -> stream w2 = Some StreamClosed) /\
    ((stdout w1 = stdout w /\
      (stream w = None \/ stream w1 = Some StreamClosed)) \/
     stdout w1 = stdout w ++ [close_message]).
Proof.
  destruct (audio_stop_spec w)
    as [w1 [Hs1 [Hf1 [Hnone1 [Hquiet1 [_ Hlog1]]]]]].
  destruct (audio_stop_spec w1)
    as [w2 [Hs2 [Hf2 [Hnone2 [Hquiet2 [Hclosed2 _]]]]]].
  exists w1, w2.
  split; [exact Hs1|]. split; [exact Hs2|].
  split; [exact Hf1|]. split; [exact Hf2|].
  split; [|split; [|split; [exact Hclosed2|exact Hlog1]]].
  - intros Hn. specialize (Hnone1 Hn). split; [exact Hnone1|].
    rewrite Hnone2; subst w1; simpl; auto.
  - intros Hq. destruct (stream w) as [s|] eqn:Hst.
    + assert (Hw1 : w1 = set_stream (Some StreamClosed)
                           (set_aud_is_running false w))
        by (apply Hquiet1; [exact Hq|congruence]).
      split; [intros _; now subst w1|].
      rewrite Hquiet2; subst w1; simpl; auto. congruence.
    + specialize (Hnone1 eq_refl). split; [congruence|].
      rewrite Hnone2; subst w1; simpl; auto.
Qed.

Lemma audio_stop_idempotent_witness :
  let w := set_stream (Some StreamActive) (Application.init []) in
  exists w1,
    AudioStream.stop w = (Ok tt, w1) /\
    AudioStream.stop w1 = (Ok tt, w1) /\
    aud_is_running w1 = false /\
    stream w1 = Some StreamClosed.
Proof.
  intros w.
  destruct (audio_stop_idempotent w)
    as [w1 [w2 [Hs1 [Hs2 [Hf1 [_ [_ [Hquiet _]]]]]]]].
  destruct (Hquiet eq_refl) as [Hclosed Hsame].
  exists w1. rewrite Hsame in Hs2.
  split; [exact Hs1|]. split; [exact Hs2|]. split; [exact Hf1|].
  apply Hclosed. discriminate.
Defined.

(** Claim C6 as stated fails when a call into the stream fails.  With the
    stream active and its first call raising, one [stop] prints the
    failure and leaves the stream active, not closed; a second [stop]
    then closes it: the two calls do not end where one call ends. *)
Lemma audio_stop_after_failure_not_idempotent :
  let w := set_stream (Some StreamActive) (Application.init [true]) in
  exists w1 w2,
    AudioStream.stop w = (Ok tt, w1) /\
    AudioStream.stop w1 = (Ok tt, w2) /\
    stream w1 = Some StreamActive /\
    stdout w1 = [close_message] /\
    stream w2 = Some StreamClosed /\
    w2 <> w1.
Proof.
  intros w. do 2 eexists.
  split; [reflexivity|]. split; [reflexivity|].
  split; [reflexivity|]. split; [reflexivity|]. split; [reflexivity|].
  intros H. apply (f_equal stream) in H. discriminate H.
Qed.

(** Claim C9.  The running flags are monotone.  They start true; no
    operation of the program sets one of them back to true, so along any
    run each flag is true for a while and then false for good; only the
    stop operations change the flag of [Application], and they leave the
    three flags false.  Each stage is gated by its own flag, in every
    state: with the flag of [AudioStream] false the audio callback
    returns at once and changes nothing, with the flag of [Application]
    false so does the queue processing of the render loop, which
    schedules no further tick, and with the flag of the visualizer false
    so does the drawing. *)
Theorem lifecycle_flag_monotone (schedule : list bool) (ops : list operation) :
  let w0 := Application.init schedule in
  (app_is_running w0 = true /\ vis_is_running w0 = true /\
   aud_is_running w0 = true) /\
  (forall o w, flags_mono w (step o w)) /\
  (forall o w, is_stop o = false ->
               app_is_running (step o w) = app_is_running w) /\
  falls_once (map app_is_running (trace ops w0)) /\
  falls_once (map vis_is_running (trace ops w0)) /\
  falls_once (map aud_is_running (trace ops w0)) /\
  (forall o w, is_stop o = true ->
               app_is_running (step o w) = false /\
               vis_is_running (step o w) = false /\
               aud_is_running (step o w) = false) /\
  (forall w, aud_is_running w = false ->
             forall indata,
               AudioStream._audio_callback indata w = (Ok tt, w)) /\
  (forall w, app_is_running w = false ->
             Application.process_queue w = (Ok tt, w)) /\
  (forall w, vis_is_running w = false ->
             forall spectrum,
               SpectrumVisualizer.update_bars spectrum w = (Ok tt, w)).
Proof.
  intros w0.
  split; [repeat split|].
  split; [exact step_flags_mono|].
  split; [exact step_other_keeps_app|].
  split; [|split; [|split]].
  - apply trace_falls_once. intros o w. apply (step_flags_mono o w).
  - apply trace_falls_once. intros o w. apply (step_flags_mono o w).
  - apply trace_falls_once. intros o w. apply (step_flags_mono o w).
  - split; [exact step_stop_flags|]. split; [|split].
    + intros w Hoff indata. now apply callback_stopped.
    + intros w Hoff. now apply process_queue_stopped.
    + intros w Hoff spectrum. now apply update_bars_stopped.
Qed.

Lemma lifecycle_flag_monotone_witness :
  let buffer := Np.mk_ndarray2 3 2 (fun _ _ => 1) in
  let w := step OpSignal
             (step (OpAudioCallback buffer)
                   (step OpRun (Application.init []))) in
  app_is_running w = false /\
  Application.process_queue w = (Ok tt, w) /\
  AudioStream._audio_callback buffer w = (Ok tt, w).
Proof.
  intros buffer.
  remember (step (OpAudioCallback buffer) (step OpRun (Application.init [])))
    as w2 eqn:Hw2.
  intros w.
  destruct (lifecycle_flag_monotone [] [])
    as [_ [_ [_ [_ [_ [_ [Hstop [Hcb [Hpq _]]]]]]]]].
  destruct (Hstop OpSignal w2 eq_refl) as [Happ [_ Haud]].
  split; [exact Happ|]. split; [now apply Hpq|now apply Hcb].
Defined.

(** * Further properties of the code *)

(** ** States a run reaches *)

Section Reachable.

Lemma trace_invariant (P : World -> Prop) :
  (forall o w, P w -> P (step o w)) ->
  forall ops w0, P w0 -> forall w, In w (trace ops w0) -> P w.
Proof.
  intros Hstep. induction ops as [|o ops IH]; intros w0 H0 w Hin;
    simpl in Hin.
  - destruct Hin as [<-|[]]. exact H0.
  - destruct Hin as [<-|Hin]; [exact H0|].
    eapply IH; [|exact Hin]. now apply Hstep.
Qed.

(** The two ways a turn of the loop of lines 142-144 goes. *)
Lemma drain_loop_exit (fuel : nat) (w : World) :
  data_queue w = [] \/ app_is_running w = false ->
  Application.drain_loop fuel w = (Ok tt, w).
Proof.
  intros Hexit. destruct fuel as [|fuel]; [reflexivity|].
  cbn [Application.drain_loop]. unfold bind, Queue.empty, get.
  destruct Hexit as [Hq|Happ].
  - now rewrite Hq.
  - rewrite Happ. now rewrite andb_false_r.
Qed.

Lemma drain_loop_turn (fuel : nat) (w : World) (frame : list R)
      (rest : list (list R)) :
  data_queue w = frame :: rest -> app_is_running w = true ->
  Application.drain_loop (S fuel) w
  = match SpectrumVisualizer.update_bars frame (set_data_queue rest w) with
    | (Ok _, w') => Application.drain_loop fuel w'
    | (Raise e, w') => (Raise e, w')
    end.
Proof.
  intros Hq Happ. cbn [Application.drain_loop].
  unfold bind at 1, Queue.empty, get. unfold bind at 1, get.
  rewrite Hq, Happ. cbn [length Nat.eqb negb andb].
  unfold bind at 1, Queue.get_nowait. rewrite Hq.
  unfold bind at 1. reflexivity.
Qed.

(** [process_queue] while the application runs: the loop, its two
    handlers, then the next tick. *)
Lemma process_queue_running (w : World) :
  app_is_running w = true ->
  Application.process_queue w
  = match Application.drain_loop (length (data_queue w)) w with
    | (Ok _, w') =>
        if app_is_running w' then Application.root_after w' else (Ok tt, w')
    | (Raise QueueEmpty, w') =>
        if app_is_running w' then Application.root_after w' else (Ok tt, w')
    | (Raise e, w') =>
        let w'' := set_stdout (stdout w' ++ [queue_error_line e]) w' in
        if app_is_running w' then Application.root_after w'' else (Ok tt, w'')
    end.
Proof.
  intros Happ. unfold Application.process_queue.
  unfold bind at 1, get. rewrite Happ. cbn [negb].
  unfold bind at 1, get. unfold bind at 1, try_except.
  destruct (Application.drain_loop (length (data_queue w)) w) as [[[]|e] w'].
  - unfold bind, get, ret. now destruct (app_is_running w').
  - destruct e; unfold bind, get, ret, print, modify, queue_error_line;
      cbn [app_is_running set_stdout]; now destruct (app_is_running w').
Qed.

Lemma update_bars_keeps_queue (frame : list R) (w : World) :
  data_queue (snd (SpectrumVisualizer.update_bars frame w)) = data_queue w.
Proof. apply update_bars_frame_queue. Qed.

Lemma update_bars_keeps_app (frame : list R) (w : World) :
  app_is_running (snd (SpectrumVisualizer.update_bars frame w))
  = app_is_running w.
Proof. apply update_bars_frame_queue. Qed.

(** The loop only removes frames from the head of the queue. *)
Lemma drain_loop_suffix (fuel : nat) :
  forall w : World,
    exists k,
      data_queue (snd (Application.drain_loop fuel w))
      = skipn k (data_queue w).
Proof.
  induction fuel as [|fuel IH]; intros w; [now exists 0%nat|].
  destruct (data_queue w) as [|frame rest] eqn:Hq.
  - rewrite drain_loop_exit by auto. exists 0%nat. exact Hq.
  - destruct (app_is_running w) eqn:Happ.
    + rewrite (drain_loop_turn fuel w frame rest Hq Happ).
      pose proof (update_bars_keeps_queue frame (set_data_queue rest w))
        as Hsame.
      destruct (SpectrumVisualizer.update_bars frame (set_data_queue rest w))
        as [[[]|e] w1]; simpl in Hsame.
      * destruct (IH w1) as [k Hk]. exists (S k). now rewrite Hk, Hsame.
      * exists 1%nat. exact Hsame.
    + rewrite drain_loop_exit by auto. exists 0%nat. exact Hq.
Qed.

Lemma root_after_keeps (w : World) :
  data_queue (snd (Application.root_after w)) = data_queue w /\
  canvas (snd (Application.root_after w)) = canvas w /\
  stdout (snd (Application.root_after w)) = stdout w.
Proof.
  unfold Application.root_after, bind, ext_call, modify.
  destruct (faults w) as [|[|] fs]; simpl; auto.
Qed.

Lemma process_queue_suffix (w : World) :
  exists k,
    data_queue (snd (Application.process_queue w)) = skipn k (data_queue w).
Proof.
  destruct (app_is_running w) eqn:Happ.
  - rewrite (process_queue_running w Happ).
    destruct (drain_loop_suffix (length (data_queue w)) w) as [k Hk].
    exists k. rewrite <- Hk.
    destruct (Application.drain_loop (length (data_queue w)) w)
      as [[[]|e] w'];
      [|destruct e]; cbn [snd]; cbv zeta;
      destruct (app_is_running w'); cbn [snd];
      rewrite ?(proj1 (root_after_keeps _)); reflexivity.
  - rewrite process_queue_stopped by assumption. now exists 0%nat.
Qed.

(** What the audio callback does to the queue. *)
Lemma callback_queue_cases (indata : Np.ndarray2) (w : World) :
  data_queue (snd (AudioStream._audio_callback indata w)) = data_queue w \/
  ((length (data_queue w) < Queue.maxsize)%nat /\
   exists samples,
     data_queue (snd (AudioStream._audio_callback indata w))
     = data_queue w ++ [spectrum_of samples]).
Proof.
  destruct (aud_is_running w) eqn:Hrun.
  - destruct (Np.column0 indata) as [samples|] eqn:Hcol.
    + rewrite (callback_running indata samples w Hrun Hcol). cbn [snd].
      destruct (Nat.leb_spec Queue.maxsize (length (data_queue w))).
      * left. now rewrite try_push_full.
      * right. split; [assumption|]. exists samples.
        now rewrite try_push_room.
    + left. now rewrite (callback_no_channel indata w Hrun Hcol).
  - left. now rewrite (callback_stopped indata w Hrun).
Qed.

Lemma audio_stop_keeps_queue_canvas (w : World) :
  data_queue (snd (AudioStream.stop w)) = data_queue w /\
  canvas (snd (AudioStream.stop w)) = canvas w.
Proof.
  apply (preserves_audio_stop
           (fun w w' => data_queue w' = data_queue w /\ canvas w' = canvas w));
    try (intros; simpl; tauto).
  intros w1 w2 w3 [H1 H2] [H3 H4]. split; congruence.
Qed.

Lemma stop_keeps_queue_canvas (w : World) :
  data_queue (snd (Application.stop w)) = data_queue w /\
  canvas (snd (Application.stop w)) = canvas w.
Proof.
  apply (preserves_stop
           (fun w w' => data_queue w' = data_queue w /\ canvas w' = canvas w));
    try (intros; simpl; tauto).
  intros w1 w2 w3 [H1 H2] [H3 H4]. split; congruence.
Qed.

Lemma run_keeps_queue_canvas_stdout (w : World) :
  data_queue (snd (Application.run w)) = data_queue w /\
  canvas (snd (Application.run w)) = canvas w /\
  stdout (snd (Application.run w)) = stdout w.
Proof.
  apply (preserves_run
           (fun w w' => data_queue w' = data_queue w /\
                        canvas w' = canvas w /\ stdout w' = stdout w));
    try (intros; simpl; tauto).
  intros w1 w2 w3 [H1 [H2 H5]] [H3 [H4 H6]]. repeat split; congruence.
Qed.

Lemma audio_start_keeps_queue_canvas_stdout (w : World) :
  data_queue (snd (AudioStream.start w)) = data_queue w /\
  canvas (snd (AudioStream.start w)) = canvas w /\
  stdout (snd (AudioStream.start w)) = stdout w.
Proof.
  apply (preserves_audio_start
           (fun w w' => data_queue w' = data_queue w /\
                        canvas w' = canvas w /\ stdout w' = stdout w));
    try (intros; simpl; tauto).
  intros w1 w2 w3 [H1 [H2 H5]] [H3 [H4 H6]]. repeat split; congruence.
Qed.

(** What one operation does to the queue: it removes frames from the
    head, or it appends one frame of the transform to a queue that has
    room. *)
Lemma step_queue_cases (o : operation) (w : World) :
  (exists k, data_queue (step o w) = skipn k (data_queue w)) \/
  ((length (data_queue w) < Queue.maxsize)%nat /\
   exists samples,
     data_queue (step o w) = data_queue w ++ [spectrum_of samples]).
Proof.
  unfold step. destruct o; cbn [perform].
  - left. exists 0%nat. apply run_keeps_queue_canvas_stdout.
  - left. exists 0%nat. apply audio_start_keeps_queue_canvas_stdout.
  - destruct (callback_queue_cases indata w) as [H|H]; [left|now right].
    now exists 0%nat.
  - left. exists 0%nat. apply audio_stop_keeps_queue_canvas.
  - left. exists 0%nat. apply update_bars_keeps_queue.
  - left. now exists 0%nat.
  - left. apply process_queue_suffix.
  - left. unfold bind at 1, modify.
    destruct (process_queue_suffix
                (set_timers (Nat.pred (timers w)) w)) as [k Hk].
    exists k. exact Hk.
  - left. exists 0%nat. apply stop_keeps_queue_canvas.
  - left. exists 0%nat.
    unfold Application.signal_handler, bind at 1, print, modify.
    apply (stop_keeps_queue_canvas (set_stdout _ w)).
Qed.

Lemma In_skipn {A} (k : nat) (l : list A) (x : A) :
  In x (skipn k l) -> In x l.
Proof.
  intros Hin. rewrite <- (firstn_skipn k l). apply in_or_app. now right.
Qed.

Lemma skipn_length_le {A} (k : nat) (l : list A) :
  (length (skipn k l) <= length l)%nat.
Proof. rewrite length_skipn. lia. Qed.

Lemma spectrum_of_well_formed (samples : list R) :
  frame_well_formed (spectrum_of samples).
Proof.
  split; [apply spectrum_of_length|].
  pose proof (spectrum_of_nonneg samples) as Hpos.
  pose proof (where_gt_gated NOISE_THRESHOLD
                (firstn NUM_BARS (fft_magnitudes samples))) as Hgate.
  fold (spectrum_of samples) in Hgate.
  rewrite Forall_forall in *. intros m Hm. split; auto.
Qed.

Lemma init_in_trace (ops : list operation) (w0 : World) : In w0 (trace ops w0).
Proof. destruct ops; simpl; auto. Qed.

End Reachable.

(** X1.  The queue never holds more than its 100 frames: in every state
    a run of the program reaches, whatever the operations and the faults,
    the occupancy is at most [Queue.maxsize]. *)
Theorem queue_never_exceeds_capacity
        (schedule : list bool) (ops : list operation) (w : World) :
  In w (trace ops (Application.init schedule)) ->
  (length (data_queue w) <= Queue.maxsize)%nat.
Proof.
  apply (trace_invariant
           (fun w => (length (data_queue w) <= Queue.maxsize)%nat)).
  - intros o w1 Hle.
    destruct (step_queue_cases o w1) as [[k ->]|[Hroom [samples ->]]].
    + pose proof (skipn_length_le k (data_queue w1)). lia.
    + rewrite length_app. simpl. lia.
  - simpl. unfold Queue.maxsize. lia.
Qed.

Lemma queue_never_exceeds_capacity_witness :
  let buffer := Np.mk_ndarray2 3 2 (fun _ _ => 1) in
  (length (data_queue (step (OpAudioCallback buffer) (Application.init [])))
   <= Queue.maxsize)%nat.
Proof.
  intros buffer.
  apply (queue_never_exceeds_capacity [] [OpAudioCallback buffer]).
  cbn [trace]. right. left. reflexivity.
Defined.

(** X2.  Every frame found in the queue of a state a run reaches came
    from the transform of the audio callback: it has [NUM_BARS] values,
    none negative, each 0 or above [NOISE_THRESHOLD]. *)
Theorem queued_frames_well_formed
        (schedule : list bool) (ops : list operation) (w : World)
        (frame : list R) :
  In w (trace ops (Application.init schedule)) ->
  In frame (data_queue w) ->
  frame_well_formed frame.
Proof.
  intros Hw. revert frame.
  apply (trace_invariant
           (fun w => forall frame, In frame (data_queue w) ->
                                   frame_well_formed frame))
    with (ops := ops) (w0 := Application.init schedule); [| |exact Hw].
  - intros o w1 Hinv frame.
    destruct (step_queue_cases o w1) as [[k ->]|[Hroom [samples ->]]].
    + intros Hin. apply Hinv. now apply In_skipn in Hin.
    + intros Hin. apply in_app_or in Hin.
      destruct Hin as [Hin|[<-|[]]]; [now apply Hinv|].
      apply spectrum_of_well_formed.
  - intros frame [].
Qed.

Lemma queued_frames_well_formed_witness :
  let buffer := Np.mk_ndarray2 3 2 (fun _ _ => 1) in
  frame_well_formed (spectrum_of [1; 1; 1]).
Proof.
  intros buffer.
  apply (queued_frames_well_formed
           [] [OpAudioCallback buffer]
           (step (OpAudioCallback buffer) (Application.init []))).
  - cbn [trace]. right. left. reflexivity.
  - unfold step. cbn [perform].
    rewrite (callback_running buffer [1; 1; 1] (Application.init [])
               eq_refl eq_refl).
    cbn [snd]. rewrite try_push_room by (unfold Queue.maxsize; cbn; lia).
    cbn [data_queue set_data_queue Application.init app]. now left.
Defined.

(** ** Where the bars are *)

Section BarsInPlace.

Import SpectrumVisualizer.

Lemma bar_width_13 : bar_width = 13%Z.
Proof. reflexivity. Qed.

Lemma list_set_length {A} (i : nat) (x : A) (l : list A) :
  length (list_set i x l) = length l.
Proof.
  revert i. induction l as [|y l IH]; intros [|i]; simpl; auto.
Qed.

Lemma nth_error_list_set {A} (i j : nat) (x r : A) (l : list A) :
  nth_error (list_set i x l) j = Some r ->
  (j = i /\ r = x) \/ nth_error l j = Some r.
Proof.
  revert i j. induction l as [|y l IH]; intros [|i] [|j]; simpl; intros H;
    try discriminate; auto.
  - injection H as <-. now left.
  - destruct (IH i j H) as [[-> ->]|Hn]; auto.
Qed.

Lemma initial_bar_in_place (i : nat) : bar_in_place i (initial_bar i).
Proof.
  right. unfold initial_bar, canvas_height. rewrite bar_width_13.
  cbn [rx0 rx1 ry0 ry1]. repeat split; try lia; lra.
Qed.

Lemma bar_rect_in_place (i : nat) (v : R) :
  0 <= v <= max_height -> bar_in_place i (bar_rect i v).
Proof.
  intros Hv. right. unfold bar_rect, canvas_height, max_height in *.
  rewrite bar_width_13. cbn [rx0 rx1 ry0 ry1]. repeat split; try lia; lra.
Qed.

Lemma initial_canvas_in_place : canvas_in_place initial_canvas.
Proof.
  split; [reflexivity|]. unfold initial_canvas. intros i r Hr.
  rewrite nth_error_map, nth_error_seq in Hr.
  destruct (Nat.ltb i NUM_BARS); [|discriminate].
  injection Hr as <-. apply initial_bar_in_place.
Qed.

Lemma canvas_coords_in_place (i : nat) (r : rect) (w : World) :
  canvas_in_place (canvas w) -> bar_in_place i r ->
  canvas_in_place (canvas (snd (canvas_coords i r w))).
Proof.
  intros [Hlen Hall] Hr.
  unfold canvas_coords, bind, ext_call, modify.
  destruct (faults w) as [|[|] fs]; cbn [snd canvas set_canvas set_faults];
    try (split; assumption);
    (split; [now rewrite list_set_length|]);
    intros j r' Hj; apply nth_error_list_set in Hj;
    destruct Hj as [[-> ->]|Hj]; auto.
Qed.

Lemma collapse_bars_in_place (bars : list nat) :
  forall w : World,
    canvas_in_place (canvas w) ->
    canvas_in_place (canvas (snd (collapse_bars bars w))).
Proof.
  induction bars as [|bar rest IH]; intros w Hw; [exact Hw|].
  cbn [collapse_bars]. unfold bind at 1, try_except, bind at 1.
  pose proof (canvas_coords_in_place bar (mk_rect 0 0 0 0) w Hw
                (or_introl eq_refl)) as Hstep.
  destruct (canvas_coords bar (mk_rect 0 0 0 0) w) as [[[]|e] w1];
    cbn [snd] in Hstep.
  - cbn [ret]. now apply IH.
  - destruct e; cbn [ret snd]; exact Hstep.
Qed.

Lemma draw_bars_in_place (hs : list R) (bars : list nat) :
  Forall (fun h => 0 <= h <= max_height) hs ->
  forall w : World,
    canvas_in_place (canvas w) ->
    canvas_in_place (canvas (snd (draw_bars hs bars w))).
Proof.
  intros Hhs. induction bars as [|i rest IH]; intros w Hw; [exact Hw|].
  cbn [draw_bars]. destruct (nth_error hs i) as [v|] eqn:Hv; [|exact Hw].
  assert (Hb : 0 <= v <= max_height).
  { rewrite Forall_forall in Hhs. apply Hhs. eapply nth_error_In, Hv. }
  unfold bind at 1.
  pose proof (canvas_coords_in_place i (bar_rect i v) w Hw
                (bar_rect_in_place i v Hb)) as Hstep.
  destruct (canvas_coords i (bar_rect i v) w) as [[[]|e] w1];
    cbn [snd] in Hstep; [now apply IH|exact Hstep].
Qed.

(** Whatever the frame and the faults, [update_bars] leaves every bar
    collapsed or in its own column. *)
Lemma update_bars_in_place (frame : list R) (w : World) :
  canvas_in_place (canvas w) ->
  canvas_in_place (canvas (snd (update_bars frame w))).
Proof.
  intros Hw. unfold update_bars, bind, get.
  destruct (vis_is_running w); cbn [negb]; [|exact Hw].
  destruct (Np.all_zero frame); [now apply collapse_bars_in_place|].
  unfold try_except.
  destruct (rescale frame) as [hs|] eqn:Hhs; [|exact Hw].
  pose proof (draw_bars_in_place hs (seq 0 NUM_BARS)
                (rescale_bounds frame hs Hhs) w Hw) as Hdraw.
  destruct (draw_bars hs (seq 0 NUM_BARS) w) as [[[]|e] w1];
    cbn [snd] in Hdraw; [exact Hdraw|].
  destruct e; exact Hdraw.
Qed.

Lemma drain_loop_in_place (fuel : nat) :
  forall w : World,
    canvas_in_place (canvas w) ->
    canvas_in_place (canvas (snd (Application.drain_loop fuel w))).
Proof.
  induction fuel as [|fuel IH]; intros w Hw; [exact Hw|].
  destruct (data_queue w) as [|frame rest] eqn:Hq.
  - now rewrite drain_loop_exit by auto.
  - destruct (app_is_running w) eqn:Happ.
    + rewrite (drain_loop_turn fuel w frame rest Hq Happ).
      pose proof (update_bars_in_place frame (set_data_queue rest w) Hw)
        as Hstep.
      destruct (update_bars frame (set_data_queue rest w)) as [[[]|e] w1];
        cbn [snd] in Hstep; [now apply IH|exact Hstep].
    + now rewrite drain_loop_exit by auto.
Qed.

Lemma process_queue_in_place (w : World) :
  canvas_in_place (canvas w) ->
  canvas_in_place (canvas (snd (Application.process_queue w))).
Proof.
  intros Hw. destruct (app_is_running w) eqn:Happ.
  - rewrite (process_queue_running w Happ).
    pose proof (drain_loop_in_place (length (data_queue w)) w Hw) as Hd.
    destruct (Application.drain_loop (length (data_queue w)) w)
      as [[[]|e] w'];
      [|destruct e]; cbn [snd] in Hd; cbv zeta;
      destruct (app_is_running w'); cbn [snd];
      rewrite ?(proj1 (proj2 (root_after_keeps _))); exact Hd.
  - now rewrite process_queue_stopped.
Qed.

Lemma step_in_place (o : operation) (w : World) :
  canvas_in_place (canvas w) -> canvas_in_place (canvas (step o w)).
Proof.
  intros Hw. unfold step. destruct o; cbn [perform].
  - now rewrite (proj1 (proj2 (run_keeps_queue_canvas_stdout w))).
  - now rewrite (proj1 (proj2 (audio_start_keeps_queue_canvas_stdout w))).
  - replace (canvas (snd (AudioStream._audio_callback indata w)))
      with (canvas w); [exact Hw|].
    symmetry.
    apply (preserves_audio_callback (fun w w' => canvas w' = canvas w));
      intros; simpl in *; congruence.
  - now rewrite (proj2 (audio_stop_keeps_queue_canvas w)).
  - now apply update_bars_in_place.
  - exact Hw.
  - now apply process_queue_in_place.
  - unfold bind at 1, modify.
    now apply (process_queue_in_place (set_timers _ w)).
  - now rewrite (proj2 (stop_keeps_queue_canvas w)).
  - unfold Application.signal_handler, bind at 1, print, modify.
    now rewrite (proj2 (stop_keeps_queue_canvas (set_stdout _ w))).
Qed.

End BarsInPlace.

(** X3.  In every state a run reaches there are [NUM_BARS] rectangles,
    and the rectangle of bar [i] is either collapsed at the origin or in
    its own column, from x = 13 i to x = 13 i + 11, with its bottom on
    the bottom edge of the canvas and its top inside the canvas: no
    frame, no fault and no interrupted update puts a bar elsewhere. *)
Theorem bars_stay_in_place
        (schedule : list bool) (ops : list operation) (w : World) :
  In w (trace ops (Application.init schedule)) ->
  canvas_in_place (canvas w).
Proof.
  apply (trace_invariant (fun w => canvas_in_place (canvas w))).
  - exact step_in_place.
  - exact initial_canvas_in_place.
Qed.

Lemma bars_stay_in_place_witness :
  canvas_in_place
    (canvas (step (OpUpdateBars [1; 2]) (Application.init [false; true]))).
Proof.
  apply (bars_stay_in_place [false; true] [OpUpdateBars [1; 2]]).
  cbn [trace]. right. left. reflexivity.
Defined.

(** X4.  The layout of [_initialize_bars] against the canvas of line 36:
    each of the 60 bars is 11 pixels wide, two bars in a row are 2 pixels
    apart, and [update_bars] draws a bar in the column it was created
    in; the columns are laid out over 780 pixels while the canvas is 750
    wide, so bar [i] is wholly on the canvas exactly when [i <= 56], and
    bars 58 and 59 are wholly beyond its right edge. *)
Theorem bar_layout_exceeds_canvas (i : nat) (v : R) :
  (i < NUM_BARS)%nat ->
  let r := SpectrumVisualizer.initial_bar i in
  (rx1 r - rx0 r = 11)%Z /\
  (rx0 (SpectrumVisualizer.initial_bar (S i)) - rx1 r = 2)%Z /\
  rx0 (SpectrumVisualizer.bar_rect i v) = rx0 r /\
  rx1 (SpectrumVisualizer.bar_rect i v) = rx1 r /\
  ((rx1 r <= canvas_width)%Z <-> (i <= 56)%nat) /\
  ((canvas_width <= rx0 r)%Z <-> (58 <= i)%nat).
Proof.
  intros Hi. unfold SpectrumVisualizer.initial_bar,
    SpectrumVisualizer.bar_rect, canvas_width, NUM_BARS in *.
  rewrite bar_width_13. cbn [rx0 rx1]. repeat split; lia.
Qed.

Lemma bar_layout_exceeds_canvas_witness :
  (canvas_width <= rx0 (SpectrumVisualizer.initial_bar 58))%Z /\
  ~ (rx1 (SpectrumVisualizer.initial_bar 57) <= canvas_width)%Z.
Proof.
  destruct (bar_layout_exceeds_canvas 58 0) as [_ [_ [_ [_ [_ [_ H58]]]]]].
  { unfold NUM_BARS. lia. }
  destruct (bar_layout_exceeds_canvas 57 0) as [_ [_ [_ [_ [H57 _]]]]].
  { unfold NUM_BARS. lia. }
  split; [apply H58; lia|]. intros H. apply H57 in H. lia.
Defined.

(** ** Stopping the application: lines 133-135 and 153-166 *)

Section ApplicationStop.

(** Lines 159-166: whatever Tk answers, the teardown completes and the
    last line is printed. *)
Lemma stop_tail_spec (w : World) :
  exists n fs,
    (try_except
       (Application.root_after;; Application.root_after_cancel;;
        Application.root_quit;; Application.root_destroy)
       (fun _ => Some (ret tt));;
     print (Line "Application stopped.")) w
    = (Ok tt,
       set_stdout (stdout w ++ [Line "Application stopped."])
                  (set_timers n (set_faults fs w))) /\
    (faults w = [] -> n = 0%nat /\ fs = []).
Proof.
  destruct w as [app q vis cv aud st tm out fl].
  unfold Application.root_after, Application.root_after_cancel,
    Application.root_quit, Application.root_destroy, try_except, bind,
    modify, ext_call, print, ret.
  match goal with
  | |- exists n fs, ?t = _ /\ _ =>
      exists (timers (snd t)), (faults (snd t))
  end.
  destruct fl as [|[|] [|[|] [|[|] [|[|] fl]]]]; cbn;
    (split; [reflexivity|]); intros H; try discriminate H.
  split; reflexivity.
Qed.

(** [Application.stop] as a whole. *)
Lemma stop_spec (w : World) :
  exists w1 n fs,
    AudioStream.stop
      (set_vis_is_running false (set_app_is_running false w))
    = (Ok tt, w1) /\
    Application.stop w
    = (Ok tt,
       set_stdout (stdout w1 ++ [Line "Application stopped."])
                  (set_timers n (set_faults fs w1))) /\
    (faults w1 = [] -> n = 0%nat /\ fs = []).
Proof.
  unfold Application.stop, SpectrumVisualizer.stop.
  rewrite (bind_ok _ _ w (set_app_is_running false w) tt) by reflexivity.
  set (w2 := set_vis_is_running false (set_app_is_running false w)).
  rewrite (bind_ok _ _ _ w2 tt) by reflexivity.
  destruct (audio_stop_spec w2) as [w1 [Hstop _]].
  rewrite (bind_ok _ _ _ w1 tt Hstop).
  destruct (stop_tail_spec w1) as [n [fs [Htail Hquiet]]].
  exists w1, n, fs. split; [exact Hstop|]. split; [exact Htail|exact Hquiet].
Qed.

(** [Application.stop] when the stream and Tk answer. *)
Lemma stop_quiet (w : World) :
  faults w = [] ->
  Application.stop w
  = (Ok tt,
     mk_World false (data_queue w) false (canvas w) false
              (match stream w with
               | None => None
               | Some _ => Some StreamClosed
               end)
              0 (stdout w ++ [Line "Application stopped."]) []).
Proof.
  intros Hf. destruct w as [app q vis cv aud st tm out fl].
  simpl in Hf. subst fl.
  destruct st as [[| |]|]; reflexivity.
Qed.

Lemma stop_complete (w : World) :
  exists w',
    Application.stop w = (Ok tt, w') /\
    app_is_running w' = false /\ vis_is_running w' = false /\
    aud_is_running w' = false /\
    data_queue w' = data_queue w /\ canvas w' = canvas w /\
    (stdout w' = stdout w ++ [Line "Application stopped."] \/
     stdout w' = stdout w ++ [close_message; Line "Application stopped."]).
Proof.
  destruct (stop_spec w) as [w1 [n [fs [Hstop [Hall _]]]]].
  eexists. split; [exact Hall|].
  pose proof (stop_flags w) as Hflags. rewrite Hall in Hflags.
  cbv zeta in Hflags. cbn [snd] in Hflags.
  destruct Hflags as [Ha [Hv Hu]].
  pose proof (stop_keeps_queue_canvas w) as [Hq Hc]. rewrite Hall in Hq, Hc.
  cbn [snd] in Hq, Hc.
  split; [exact Ha|]. split; [exact Hv|]. split; [exact Hu|].
  split; [exact Hq|]. split; [exact Hc|].
  destruct (audio_stop_spec
              (set_vis_is_running false (set_app_is_running false w)))
    as [w1' [Hstop' [_ [_ [_ [_ Hlog]]]]]].
  rewrite Hstop in Hstop'. injection Hstop' as <-.
  cbn [stdout set_stdout set_timers set_faults].
  cbn [stdout set_vis_is_running set_app_is_running] in Hlog.
  destruct Hlog as [[-> _]| ->]; [now left|right].
  now rewrite <- app_assoc.
Qed.

Lemma signal_handler_complete (w : World) :
  exists w',
    Application.signal_handler w = (Ok tt, w') /\
    app_is_running w' = false /\ vis_is_running w' = false /\
    aud_is_running w' = false /\
    (stdout w'
     = stdout w ++ [Line "stopping application...";
                    Line "Application stopped."] \/
     stdout w'
     = stdout w ++ [Line "stopping application..."; close_message;
                    Line "Application stopped."]).
Proof.
  unfold Application.signal_handler, bind at 1, print, modify.
  set (w0 := set_stdout (stdout w ++ [Line "stopping application..."]) w).
  destruct (stop_spec w0) as [w1 [n [fs [Hstop [Hall _]]]]].
  eexists. split; [exact Hall|].
  pose proof (stop_flags w0) as Hflags. rewrite Hall in Hflags.
  cbv zeta in Hflags. cbn [snd] in Hflags.
  destruct Hflags as [Ha [Hv Hu]].
  split; [exact Ha|]. split; [exact Hv|]. split; [exact Hu|].
  destruct (audio_stop_spec
              (set_vis_is_running false (set_app_is_running false w0)))
    as [w1' [Hstop' [_ [_ [_ [_ Hlog]]]]]].
  rewrite Hstop in Hstop'. injection Hstop' as <-.
  cbn [stdout set_stdout set_timers set_faults].
  cbn [stdout set_vis_is_running set_app_is_running] in Hlog.
  unfold w0 in Hlog. cbn [stdout set_stdout] in Hlog.
  destruct Hlog as [[-> _]| ->]; [left|right]; now rewrite <- !app_assoc.
Qed.

End ApplicationStop.

(** X5.  [Application.stop] never raises, whatever the stream and Tk
    answer.  It leaves the three flags false, leaves the queue and the
    canvas untouched (queued frames are not drawn), and its output is the
    line "Application stopped.", preceded by the stream-closing error
    line when a stream call failed. *)
Theorem application_stop_always_completes (w : World) :
  exists w',
    Application.stop w = (Ok tt, w') /\
    app_is_running w' = false /\ vis_is_running w' = false /\
    aud_is_running w' = false /\
    data_queue w' = data_queue w /\ canvas w' = canvas w /\
    (stdout w' = stdout w ++ [Line "Application stopped."] \/
     stdout w' = stdout w ++ [close_message; Line "Application stopped."]).
Proof. apply stop_complete. Qed.

(** X6.  When the stream and Tk answer, [Application.stop] leaves the
    stream closed (if there is one) and no timer pending, and a second
    [stop] changes nothing but the output, where the line
    "Application stopped." is printed once more. *)
Theorem application_stop_twice (w : World) :
  faults w = [] ->
  exists w1,
    Application.stop w = (Ok tt, w1) /\
    timers w1 = 0%nat /\
    (stream w = None /\ stream w1 = None \/ stream w1 = Some StreamClosed) /\
    stdout w1 = stdout w ++ [Line "Application stopped."] /\
    Application.stop w1
    = (Ok tt,
       set_stdout (stdout w1 ++ [Line "Application stopped."]) w1).
Proof.
  intros Hf. rewrite (stop_quiet w Hf). eexists. split; [reflexivity|].
  split; [reflexivity|]. split.
  - cbn [stream]. destruct (stream w); auto.
  - split; [reflexivity|]. rewrite stop_quiet by reflexivity.
    cbn [stream data_queue canvas stdout set_stdout app_is_running
         vis_is_running aud_is_running timers faults].
    destruct (stream w); reflexivity.
Qed.

Lemma application_stop_twice_witness :
  let w := snd (Application.run (Application.init [])) in
  exists w1,
    Application.stop w = (Ok tt, w1) /\
    stream w1 = Some StreamClosed /\ timers w1 = 0%nat.
Proof.
  intros w.
  destruct (application_stop_twice w) as [w1 [Hs [Ht [Hst _]]]].
  - reflexivity.
  - exists w1. split; [exact Hs|]. split; [|exact Ht].
    destruct Hst as [[Hnone _]|Hc]; [discriminate Hnone|exact Hc].
Defined.

(** X7.  [signal_handler] never raises: it prints
    "stopping application...", then stops the application, so that the
    output ends as that of [stop] and the three flags are false. *)
Theorem signal_handler_always_completes (w : World) :
  exists w',
    Application.signal_handler w = (Ok tt, w') /\
    app_is_running w' = false /\ vis_is_running w' = false /\
    aud_is_running w' = false /\
    (stdout w'
     = stdout w ++ [Line "stopping application...";
                    Line "Application stopped."] \/
     stdout w'
     = stdout w ++ [Line "stopping application..."; close_message;
                    Line "Application stopped."]).
Proof. apply signal_handler_complete. Qed.

(** ** What the program prints *)

Section Output.

Import SpectrumVisualizer.

(** One turn of the loop of lines 70-74. *)
Lemma draw_bars_turn (hs : list R) (i : nat) (rest : list nat) (v : R)
      (w : World) :
  nth_error hs i = Some v ->
  draw_bars hs (i :: rest) w
  = match faults w with
    | [] =>
        draw_bars hs rest
                  (set_canvas (list_set i (bar_rect i v) (canvas w)) w)
    | true :: fs => (Raise TclError, set_faults fs w)
    | false :: fs =>
        draw_bars hs rest
                  (set_canvas (list_set i (bar_rect i v) (canvas w))
                              (set_faults fs w))
    end.
Proof.
  intros Hv. cbn [draw_bars]. rewrite Hv.
  unfold canvas_coords, bind, ext_call, modify.
  destruct (faults w) as [|[|] fs]; reflexivity.
Qed.

(** The loop of lines 70-74 over a frame long enough ends normally or on
    a [TclError]. *)
Lemma draw_bars_outcome (hs : list R) (n : nat) :
  forall (a : nat) (w : World),
    (a + n <= length hs)%nat ->
    fst (draw_bars hs (seq a n) w) = Ok tt \/
    fst (draw_bars hs (seq a n) w) = Raise TclError.
Proof.
  induction n as [|n IH]; intros a w Hlen; [now left|].
  cbn [seq].
  rewrite (draw_bars_turn hs a (seq (S a) n) (nth a hs 0) w)
    by (apply nth_error_nth'; lia).
  destruct (faults w) as [|[|] fs];
    [apply IH; lia|now right|apply IH; lia].
Qed.

(** On a frame of [NUM_BARS] values [update_bars] raises nothing. *)
Lemma update_bars_total (frame : list R) (w : World) :
  length frame = NUM_BARS ->
  fst (update_bars frame w) = Ok tt.
Proof.
  intros Hlen. unfold update_bars, bind, get.
  destruct (vis_is_running w); cbn [negb]; [|reflexivity].
  destruct (Np.all_zero frame) eqn:Hz; [apply collapse_bars_total|].
  assert (Hne : frame <> []) by (intros ->; discriminate).
  destruct (rescale_some frame Hne) as [hs Hhs].
  unfold try_except. rewrite Hhs.
  destruct (draw_bars_outcome hs NUM_BARS 0 w) as [Hok|Hraise].
  - rewrite (rescale_length _ _ Hhs), Hlen. simpl. lia.
  - destruct (draw_bars hs (seq 0 NUM_BARS) w) as [[[]|e] w1];
      [reflexivity|discriminate].
  - destruct (draw_bars hs (seq 0 NUM_BARS) w) as [[[]|e] w1];
      [reflexivity|]. simpl in Hraise. injection Hraise as ->. reflexivity.
Qed.

Lemma update_bars_keeps_stdout (frame : list R) (w : World) :
  stdout (snd (update_bars frame w)) = stdout w.
Proof.
  apply (preserves_update_bars (fun w w' => stdout w' = stdout w));
    intros; simpl in *; congruence.
Qed.

(** On a queue of frames of [NUM_BARS] values the loop of lines 142-144
    completes and prints nothing. *)
Lemma drain_loop_well_formed (fuel : nat) :
  forall w : World,
    Forall (fun frame => length frame = NUM_BARS) (data_queue w) ->
    fst (Application.drain_loop fuel w) = Ok tt /\
    stdout (snd (Application.drain_loop fuel w)) = stdout w.
Proof.
  induction fuel as [|fuel IH]; intros w Hwf; [now split|].
  destruct (data_queue w) as [|frame rest] eqn:Hq.
  - rewrite drain_loop_exit by auto. now split.
  - destruct (app_is_running w) eqn:Happ.
    + rewrite (drain_loop_turn fuel w frame rest Hq Happ).
      inversion Hwf as [|? ? Hframe Hrest]; subst.
      pose proof (update_bars_total frame (set_data_queue rest w) Hframe)
        as Hok.
      pose proof (update_bars_keeps_stdout frame (set_data_queue rest w))
        as Hout.
      pose proof (update_bars_keeps_queue frame (set_data_queue rest w))
        as Hsame.
      destruct (update_bars frame (set_data_queue rest w)) as [[[]|e] w1];
        [|discriminate].
      cbn [snd] in Hout, Hsame. cbn [stdout set_data_queue] in Hout.
      cbn [data_queue set_data_queue] in Hsame.
      destruct (IH w1) as [Hok1 Hout1]; [now rewrite Hsame|].
      split; [exact Hok1|congruence].
    + rewrite drain_loop_exit by auto. now split.
Qed.

Lemma process_queue_keeps_stdout (w : World) :
  Forall (fun frame => length frame = NUM_BARS) (data_queue w) ->
  stdout (snd (Application.process_queue w)) = stdout w.
Proof.
  intros Hwf. destruct (app_is_running w) eqn:Happ.
  - rewrite (process_queue_running w Happ).
    destruct (drain_loop_well_formed (length (data_queue w)) w Hwf)
      as [Hok Hout].
    destruct (Application.drain_loop (length (data_queue w)) w)
      as [[[]|e] w']; [|discriminate].
    cbn [snd] in Hout. destruct (app_is_running w'); cbn [snd];
      rewrite ?(proj2 (proj2 (root_after_keeps _))); exact Hout.
  - now rewrite process_queue_stopped.
Qed.

Lemma lifecycle_line_is_no_queue_error (line : output_line) (e : exn) :
  In line lifecycle_lines -> line <> queue_error_line e.
Proof.
  intros [<-|[<-|[<-|[]]]]; destruct e; discriminate.
Qed.

(** What one operation adds to the output, the queue holding frames of
    [NUM_BARS] values. *)
Lemma step_output (o : operation) (w : World) :
  Forall (fun frame => length frame = NUM_BARS) (data_queue w) ->
  exists lines,
    stdout (step o w) = stdout w ++ lines /\
    forall line, In line lines -> In line lifecycle_lines.
Proof.
  intros Hwf. unfold step. destruct o; cbn [perform].
  - exists []. rewrite app_nil_r. split; [|intros ? []].
    apply run_keeps_queue_canvas_stdout.
  - exists []. rewrite app_nil_r. split; [|intros ? []].
    apply audio_start_keeps_queue_canvas_stdout.
  - exists []. rewrite app_nil_r. split; [|intros ? []].
    apply (preserves_audio_callback (fun w w' => stdout w' = stdout w));
      intros; simpl in *; congruence.
  - destruct (audio_stop_spec w) as [w1 [Hs [_ [_ [_ [_ Hlog]]]]]].
    rewrite Hs. cbn [snd]. destruct Hlog as [[-> _]| ->].
    + exists []. rewrite app_nil_r. split; [reflexivity|intros ? []].
    + exists [close_message]. split; [reflexivity|].
      intros line [<-|[]]. unfold lifecycle_lines. simpl. auto.
  - exists []. rewrite app_nil_r. split; [|intros ? []].
    apply update_bars_keeps_stdout.
  - exists []. rewrite app_nil_r. split; [reflexivity|intros ? []].
  - exists []. rewrite app_nil_r. split; [|intros ? []].
    now apply process_queue_keeps_stdout.
  - exists []. rewrite app_nil_r. split; [|intros ? []].
    unfold bind at 1, modify.
    now apply (process_queue_keeps_stdout (set_timers _ w)).
  - destruct (stop_complete w) as [w' [Hs [_ [_ [_ [_ [_ Hlog]]]]]]].
    rewrite Hs. cbn [snd]. destruct Hlog as [-> | ->]; eexists;
      (split; [reflexivity|]); intros line Hin; unfold lifecycle_lines;
      simpl in *; tauto.
  - destruct (signal_handler_complete w) as [w' [Hs [_ [_ [_ Hlog]]]]].
    rewrite Hs. cbn [snd]. destruct Hlog as [-> | ->]; eexists;
      (split; [reflexivity|]); intros line Hin; unfold lifecycle_lines;
      simpl in *; tauto.
Qed.

End Output.

(** X8.  The error branch of [process_queue] (line 148) is never taken
    in a run of the program: every frame the loop reads has [NUM_BARS]
    values, so the drawing raises nothing that reaches the handler, and
    every line the program has printed is one of "stopping
    application...", "Application stopped." and the stream-closing error
    line; none is a "Queue processing error" line. *)
Theorem queue_error_never_printed
        (schedule : list bool) (ops : list operation) (w : World)
        (line : output_line) :
  In w (trace ops (Application.init schedule)) ->
  In line (stdout w) ->
  In line lifecycle_lines /\ forall e, line <> queue_error_line e.
Proof.
  intros Hw Hline.
  assert (Hin : In line lifecycle_lines).
  { revert line Hline.
    apply (trace_invariant
             (fun w => Forall (fun frame => length frame = NUM_BARS)
                              (data_queue w) /\
                       forall line, In line (stdout w) ->
                                    In line lifecycle_lines))
      with (ops := ops) (w0 := Application.init schedule); [| |exact Hw].
    - intros o w1 [Hwf Hout]. split.
      + destruct (step_queue_cases o w1) as [[k ->]|[_ [samples ->]]].
        * apply Forall_forall. intros frame Hf. apply In_skipn in Hf.
          rewrite Forall_forall in Hwf. now apply Hwf.
        * apply Forall_app. split; [exact Hwf|].
          constructor; [apply spectrum_of_length|constructor].
      + destruct (step_output o w1 Hwf) as [lines [-> Hlines]].
        intros line Hl. apply in_app_or in Hl. destruct Hl; auto.
    - split; [constructor|intros line []]. }
  split; [exact Hin|].
  intros e. now apply lifecycle_line_is_no_queue_error.
Qed.

Lemma queue_error_never_printed_witness :
  In (Line "stopping application...")
     (stdout (step OpSignal (Application.init []))) /\
  Line "stopping application..." <> queue_error_line IndexError.
Proof.
  assert (Hin : In (Line "stopping application...")
                   (stdout (step OpSignal (Application.init []))))
    by (left; reflexivity).
  split; [exact Hin|].
  apply (queue_error_never_printed
           [] [OpSignal] (step OpSignal (Application.init [])));
    [|exact Hin].
  cbn [trace]. right. left. reflexivity.
Defined.

(** ** One tick of the render loop: lines 137-151 *)

Section Tick.

Import SpectrumVisualizer.

(** A complete [update_bars]: the visualizer runs and Tk answers. *)
Lemma update_bars_complete (frame : list R) (w : World) :
  vis_is_running w = true -> faults w = [] ->
  length (canvas w) = NUM_BARS -> length frame = NUM_BARS ->
  update_bars frame w = (Ok tt, set_canvas (frame_canvas frame) w).
Proof.
  intros Hrun Hf Hc Hlen. unfold frame_canvas.
  destruct (Np.all_zero frame) eqn:Hz.
  - now apply update_bars_zero.
  - assert (Hne : frame <> []) by (intros ->; discriminate).
    destruct (rescale_some frame Hne) as [hs Hhs]. rewrite Hhs.
    now apply update_bars_draw.
Qed.

Lemma frame_canvas_length (frame : list R) :
  length frame = NUM_BARS -> length (frame_canvas frame) = NUM_BARS.
Proof.
  intros Hlen. unfold frame_canvas.
  destruct (Np.all_zero frame) eqn:Hz; [apply repeat_length|].
  assert (Hne : frame <> []) by (intros ->; discriminate).
  destruct (rescale_some frame Hne) as [hs Hhs]. rewrite Hhs.
  now rewrite length_map, length_seq.
Qed.

(** The loop draws the queued frames in order: what is left on the
    canvas is the last of them. *)
Lemma drain_loop_draws (frames : list (list R)) :
  forall w : World,
    data_queue w = frames ->
    app_is_running w = true -> vis_is_running w = true ->
    faults w = [] -> length (canvas w) = NUM_BARS ->
    Forall (fun frame => length frame = NUM_BARS) frames ->
    Application.drain_loop (length frames) w
    = (Ok tt,
       match frames with
       | [] => w
       | _ :: _ =>
           set_canvas (frame_canvas (last frames [])) (set_data_queue [] w)
       end).
Proof.
  induction frames as [|frame rest IH]; intros w Hq Happ Hvis Hf Hc Hwf;
    [reflexivity|].
  cbn [length]. rewrite (drain_loop_turn _ w frame rest Hq Happ).
  inversion Hwf as [|? ? Hframe Hrest]; subst.
  rewrite update_bars_complete by assumption.
  rewrite (IH (set_canvas (frame_canvas frame) (set_data_queue rest w))
              eq_refl Happ Hvis Hf (frame_canvas_length frame Hframe) Hrest).
  destruct rest as [|next rest]; reflexivity.
Qed.

(** With the visualizer stopped the loop only empties the queue. *)
Lemma drain_loop_discards (frames : list (list R)) :
  forall w : World,
    data_queue w = frames ->
    app_is_running w = true -> vis_is_running w = false ->
    Application.drain_loop (length frames) w = (Ok tt, set_data_queue [] w).
Proof.
  induction frames as [|frame rest IH]; intros w Hq Happ Hvis.
  - cbn [length Application.drain_loop]. unfold ret.
    now rewrite <- Hq, set_data_queue_same.
  - cbn [length]. rewrite (drain_loop_turn _ w frame rest Hq Happ).
    rewrite update_bars_stopped by assumption.
    now rewrite IH.
Qed.

Lemma root_after_cases (w : World) :
  (exists fs, faults w = true :: fs /\
              Application.root_after w = (Raise TclError, set_faults fs w)) \/
  (exists w', Application.root_after w = (Ok tt, w') /\
              timers w' = S (timers w)).
Proof.
  unfold Application.root_after, bind, ext_call, modify.
  destruct (faults w) as [|[|] fs]; [right|left|right]; eauto.
Qed.

Lemma drain_loop_keeps_timers (fuel : nat) (w : World) :
  timers (snd (Application.drain_loop fuel w)) = timers w.
Proof.
  apply (preserves_drain_loop (fun w w' => timers w' = timers w));
    intros; simpl in *; congruence.
Qed.

(** The loop of lines 70-74 on a frame that is too short. *)
Lemma draw_bars_short (hs : list R) (n : nat) :
  forall (a : nat) (w : World),
    faults w = [] ->
    (a <= length hs < a + n)%nat ->
    exists w',
      draw_bars hs (seq a n) w = (Raise IndexError, w') /\ faults w' = [].
Proof.
  induction n as [|n IH]; intros a w Hf Hlen; [lia|].
  cbn [seq]. destruct (Nat.eq_dec a (length hs)) as [->|Hne].
  - cbn [draw_bars].
    rewrite (proj2 (nth_error_None hs (length hs))) by lia.
    exists w. now split.
  - rewrite (draw_bars_turn hs a (seq (S a) n) (nth a hs 0) w)
      by (apply nth_error_nth'; lia).
    rewrite Hf. apply IH; [exact Hf|lia].
Qed.

(** A whole tick on a queue of frames of [NUM_BARS] values. *)
Lemma process_queue_draws (w : World) :
  app_is_running w = true -> vis_is_running w = true ->
  faults w = [] -> length (canvas w) = NUM_BARS ->
  Forall (fun frame => length frame = NUM_BARS) (data_queue w) ->
  Application.process_queue w
  = (Ok tt,
     set_timers (S (timers w))
       match data_queue w with
       | [] => w
       | _ :: _ =>
           set_canvas (frame_canvas (last (data_queue w) []))
                      (set_data_queue [] w)
       end).
Proof.
  intros Happ Hvis Hf Hc Hwf.
  rewrite (process_queue_running w Happ).
  rewrite (drain_loop_draws (data_queue w) w eq_refl Happ Hvis Hf Hc Hwf).
  unfold Application.root_after, bind, ext_call, modify.
  destruct (data_queue w) as [|frame rest];
    cbn [app_is_running set_canvas set_data_queue faults];
    rewrite Happ, Hf; reflexivity.
Qed.

(** [update_bars] on a frame that is not all zero and has fewer values
    than there are bars: [spectrum[i]] runs out of range. *)
Lemma update_bars_short (frame : list R) (w : World) :
  vis_is_running w = true -> faults w = [] ->
  (length frame < NUM_BARS)%nat -> Np.all_zero frame = false ->
  exists w',
    update_bars frame w = (Raise IndexError, w') /\
    faults w' = [] /\ canvas_frame w w'.
Proof.
  intros Hvis Hf Hlen Hnz. unfold update_bars, bind, get.
  rewrite Hvis, Hnz. cbn [negb]. unfold try_except.
  assert (Hne : frame <> []) by (intros ->; discriminate).
  destruct (rescale_some frame Hne) as [hs Hhs]. rewrite Hhs.
  destruct (draw_bars_short hs NUM_BARS 0 w Hf) as [w' [Hdraw Hf']].
  { rewrite (rescale_length _ _ Hhs). lia. }
  pose proof (draw_bars_frame hs (seq 0 NUM_BARS) w) as Hfr.
  rewrite Hdraw in *. cbn [snd] in Hfr.
  exists w'. repeat split; auto; apply Hfr.
Qed.

End Tick.

(** X9.  One tick of the render loop, the application and the visualizer
    running, Tk answering, the queue holding frames of [NUM_BARS] values:
    [process_queue] returns normally, empties the queue, schedules the
    next tick and prints nothing; the frames are drawn in the order they
    were queued, so that the canvas shows the last one alone (an empty
    queue leaves the canvas as it is). *)
Theorem tick_draws_last_frame (w : World) :
  app_is_running w = true -> vis_is_running w = true ->
  faults w = [] -> length (canvas w) = NUM_BARS ->
  Forall (fun frame => length frame = NUM_BARS) (data_queue w) ->
  Application.process_queue w
  = (Ok tt,
     set_timers (S (timers w))
       match data_queue w with
       | [] => w
       | _ :: _ =>
           set_canvas (frame_canvas (last (data_queue w) []))
                      (set_data_queue [] w)
       end).
Proof. apply process_queue_draws. Qed.

Lemma tick_draws_last_frame_witness :
  let frames := [repeat 0 NUM_BARS; repeat 1 NUM_BARS] in
  let w := set_data_queue frames (Application.init []) in
  Application.process_queue w
  = (Ok tt,
     set_timers 1 (set_canvas (frame_canvas (repeat 1 NUM_BARS))
                              (Application.init []))).
Proof.
  intros frames w.
  rewrite (tick_draws_last_frame w).
  - reflexivity.
  - reflexivity.
  - reflexivity.
  - reflexivity.
  - reflexivity.
  - repeat constructor.
Defined.

(** X10.  Once the visualizer is stopped (the display surface was lost)
    while the application still runs, a tick discards every queued frame
    without a call into the canvas: [process_queue] is then just the
    emptying of the queue followed by the scheduling of the next tick. *)
Theorem tick_discards_when_visualizer_stopped (w : World) :
  app_is_running w = true -> vis_is_running w = false ->
  Application.process_queue w
  = Application.root_after (set_data_queue [] w).
Proof.
  intros Happ Hvis.
  rewrite (process_queue_running w Happ).
  rewrite (drain_loop_discards (data_queue w) w eq_refl Happ Hvis).
  cbn [app_is_running set_data_queue]. now rewrite Happ.
Qed.

Lemma tick_discards_when_visualizer_stopped_witness :
  let w := set_vis_is_running false
             (set_data_queue [[1; 2]; []] (Application.init [])) in
  Application.process_queue w
  = (Ok tt, set_timers 1 (set_data_queue [] w)).
Proof.
  intros w.
  rewrite (tick_discards_when_visualizer_stopped w); reflexivity.
Defined.

(** X11.  No exception raised while the queue is drained leaves
    [process_queue]: the only exception it can raise is the [TclError] of
    [root.after] at line 151, and then no further tick is scheduled. *)
Theorem tick_raises_only_from_root_after (w w' : World) (e : exn) :
  Application.process_queue w = (Raise e, w') ->
  e = TclError /\ timers w' = timers w.
Proof.
  intros Hraise. destruct (app_is_running w) eqn:Happ.
  - rewrite (process_queue_running w Happ) in Hraise.
    pose proof (drain_loop_keeps_timers (length (data_queue w)) w) as Ht.
    destruct (Application.drain_loop (length (data_queue w)) w)
      as [[[]|e1] w1]; cbn [snd] in Ht.
    + destruct (app_is_running w1); [|discriminate].
      destruct (root_after_cases w1) as [[fs [_ Hr]]|[w2 [Hr _]]];
        rewrite Hr in Hraise; [|discriminate].
      injection Hraise as <- <-. split; [reflexivity|exact Ht].
    + assert (Hgen :
          forall w2, timers w2 = timers w ->
            (if app_is_running w1 then Application.root_after w2
             else (Ok tt, w2)) = (Raise e, w') ->
            e = TclError /\ timers w' = timers w).
      { intros w2 Ht2 H. destruct (app_is_running w1); [|discriminate].
        destruct (root_after_cases w2) as [[fs [_ Hr]]|[w3 [Hr _]]];
          rewrite Hr in H; [|discriminate].
        injection H as <- <-. split; [reflexivity|exact Ht2]. }
      destruct e1; cbv zeta in Hraise;
        (eapply Hgen; [|exact Hraise]); cbn [timers set_stdout]; exact Ht.
  - rewrite process_queue_stopped in Hraise by assumption. discriminate.
Qed.

Lemma tick_raises_only_from_root_after_witness :
  let w := Application.init [true] in
  Application.process_queue w = (Raise TclError, set_faults [] w) /\
  timers (set_faults [] w) = timers w.
Proof.
  intros w.
  assert (H : Application.process_queue w = (Raise TclError, set_faults [] w))
    by reflexivity.
  split; [exact H|].
  apply (tick_raises_only_from_root_after w (set_faults [] w) TclError H).
Defined.

(** X12.  A queued frame that is not all zero and has fewer values than
    there are bars makes the drawing raise [IndexError]; [process_queue]
    catches it, prints one line, "Queue processing error: " followed by
    the message of that exception, leaves the frames behind it in the
    queue for a later tick, keeps the visualizer running and schedules
    the next tick. *)
Theorem tick_reports_short_frame
        (w : World) (frame : list R) (rest : list (list R)) :
  app_is_running w = true -> vis_is_running w = true -> faults w = [] ->
  data_queue w = frame :: rest ->
  (length frame < NUM_BARS)%nat -> Np.all_zero frame = false ->
  exists w',
    Application.process_queue w = (Ok tt, w') /\
    data_queue w' = rest /\
    stdout w' = stdout w ++ [queue_error_line IndexError] /\
    timers w' = S (timers w) /\
    vis_is_running w' = true /\ app_is_running w' = true.
Proof.
  intros Happ Hvis Hf Hq Hlen Hnz.
  rewrite (process_queue_running w Happ). rewrite Hq. cbn [length].
  rewrite (drain_loop_turn _ w frame rest Hq Happ).
  destruct (update_bars_short frame (set_data_queue rest w) Hvis Hf Hlen Hnz)
    as [w1 [Hup [Hf1 Hfr]]].
  rewrite Hup. cbv zeta.
  destruct Hfr as [Ha [Hd [Hv [_ [_ [Ht Ho]]]]]].
  cbn [app_is_running data_queue vis_is_running timers stdout
       set_data_queue] in Ha, Hd, Hv, Ht, Ho.
  rewrite Ha, Happ.
  unfold Application.root_after, bind, ext_call, modify.
  cbn [faults set_stdout]. rewrite Hf1.
  eexists. split; [reflexivity|].
  cbn [data_queue stdout timers vis_is_running app_is_running set_timers
       set_stdout].
  repeat split; congruence.
Qed.

Lemma tick_reports_short_frame_witness :
  let w := set_data_queue [[1; 2]; repeat 0 NUM_BARS] (Application.init []) in
  exists w',
    Application.process_queue w = (Ok tt, w') /\
    data_queue w' = [repeat 0 NUM_BARS] /\
    stdout w' = [queue_error_line IndexError].
Proof.
  intros w.
  destruct (tick_reports_short_frame w [1; 2] [repeat 0 NUM_BARS])
    as [w' [Hp [Hq [Ho _]]]].
  - reflexivity.
  - reflexivity.
  - reflexivity.
  - reflexivity.
  - unfold NUM_BARS. simpl. lia.
  - destruct (Np.all_zero [1; 2]) eqn:Hz; [|reflexivity].
    apply all_zero_true in Hz. inversion Hz; lra.
  - exists w'. split; [exact Hp|]. split; [exact Hq|exact Ho].
Defined.

(** X13.  Silence from the device to the screen: with everything running,
    Tk answering and the queue empty, a callback on a buffer whose
    channel 0 is all zero, of any number of frames, followed by one tick,
    collapses every bar to the empty rectangle, leaves the queue empty
    and schedules the next tick. *)
Theorem silence_collapses_bars (indata : Np.ndarray2) (w : World) :
  Np.shape1 indata <> 0%nat ->
  (forall i, (i < Np.shape0 indata)%nat -> Np.item indata i 0%nat = 0) ->
  aud_is_running w = true -> app_is_running w = true ->
  vis_is_running w = true -> faults w = [] ->
  data_queue w = [] -> length (canvas w) = NUM_BARS ->
  exists w1,
    AudioStream._audio_callback indata w = (Ok tt, w1) /\
    data_queue w1 = [repeat 0 NUM_BARS] /\
    Application.process_queue w1
    = (Ok tt,
       set_timers (S (timers w))
                  (set_canvas (repeat (mk_rect 0 0 0 0) NUM_BARS) w)).
Proof.
  intros Hch Hzero Haud Happ Hvis Hf Hq Hc.
  destruct (column0_some indata Hch) as [samples [Hcol _]].
  assert (Hz : Forall (eq 0) samples).
  { unfold Np.column0 in Hcol.
    destruct (Nat.eqb (Np.shape1 indata) 0); [discriminate|].
    injection Hcol as <-. apply Forall_forall. intros x Hx.
    apply in_map_iff in Hx. destruct Hx as [i [<- Hi]].
    apply in_seq in Hi. rewrite Hzero by lia. reflexivity. }
  assert (Hspec : spectrum_of samples = repeat 0 NUM_BARS).
  { rewrite <- (spectrum_of_length samples). apply all_zero_repeat.
    unfold spectrum_of. apply where_gt_zero, Forall_take.
    now apply fft_magnitudes_zero. }
  rewrite (callback_running indata samples w Haud Hcol).
  rewrite try_push_room by (rewrite Hq; unfold Queue.maxsize; simpl; lia).
  rewrite Hq, Hspec. cbn [snd app].
  eexists. split; [reflexivity|]. split; [reflexivity|].
  rewrite process_queue_draws; auto.
  - cbn [data_queue set_data_queue timers last].
    assert (Hfc : frame_canvas (repeat 0 NUM_BARS)
                  = repeat (mk_rect 0 0 0 0) NUM_BARS).
    { unfold frame_canvas.
      assert (Hall : Np.all_zero (repeat 0 NUM_BARS) = true).
      { apply all_zero_true, Forall_forall. intros x Hx.
        symmetry. exact (repeat_spec _ _ _ Hx). }
      now rewrite Hall. }
    rewrite Hfc. do 2 f_equal.
    destruct w; simpl in *; subst; reflexivity.
  - cbn [data_queue set_data_queue]. constructor; [|constructor].
    apply repeat_length.
Qed.

Lemma silence_collapses_bars_witness :
  exists w1,
    AudioStream._audio_callback (Np.mk_ndarray2 2048 2 (fun _ _ => 0))
                                (Application.init [])
    = (Ok tt, w1) /\
    data_queue w1 = [repeat 0 NUM_BARS].
Proof.
  destruct (silence_collapses_bars (Np.mk_ndarray2 2048 2 (fun _ _ => 0))
                                   (Application.init []))
    as [w1 [Hcb [Hq _]]]; try reflexivity.
  - simpl. discriminate.
  - exists w1. split; [exact Hcb|exact Hq].
Defined.

(** ** The analysis window *)

Section Window.

Lemma map_zero_repeat (m d : nat) :
  map (fun _ : nat => 0) (seq m d) = repeat 0 d.
Proof.
  revert m. induction d as [|d IH]; intros m; simpl; [reflexivity|].
  now rewrite IH.
Qed.

(** The window of a buffer: its first [n] samples of channel 0, with
    zeros after the last frame. *)
Lemma resize_column0 (indata : Np.ndarray2) (samples : list R) (n : nat) :
  Np.column0 indata = Some samples ->
  Np.resize n samples = map (window_sample indata) (seq 0 n).
Proof.
  unfold Np.column0. destruct (Nat.eqb (Np.shape1 indata) 0); [discriminate|].
  intros [= <-]. unfold Np.resize.
  rewrite length_map, length_seq. set (m := Np.shape0 indata).
  assert (Hin : forall k, (k <= m)%nat ->
                  map (fun i => Np.item indata i 0%nat) (seq 0 k)
                  = map (window_sample indata) (seq 0 k)).
  { intros k Hk. apply map_ext_in. intros i Hi. apply in_seq in Hi.
    unfold window_sample. fold m.
    destruct (Nat.ltb_spec i m); [reflexivity|lia]. }
  destruct (Nat.le_gt_cases n m) as [Hle|Hgt].
  - replace (n - m)%nat with 0%nat by lia. cbn [repeat]. rewrite app_nil_r.
    rewrite firstn_map. rewrite <- (Hin n Hle). f_equal.
    replace m with (n + (m - n))%nat by lia.
    rewrite seq_app, firstn_app, length_seq.
    replace (n - n)%nat with 0%nat by lia. cbn [firstn].
    rewrite app_nil_r. apply firstn_all2. rewrite length_seq. lia.
  - rewrite firstn_all2 by (rewrite length_map, length_seq; lia).
    replace n with (m + (n - m))%nat at 2 by lia.
    rewrite seq_app, map_app, <- (Hin m (le_n m)). f_equal.
    rewrite <- (map_zero_repeat (0 + m) (n - m)).
    apply map_ext_in. intros i Hi. apply in_seq in Hi.
    unfold window_sample. fold m.
    destruct (Nat.ltb_spec i m); [lia|reflexivity].
Qed.

Lemma spectrum_of_resize (a b : list R) :
  Np.resize WINDOW_SIZE a = Np.resize WINDOW_SIZE b ->
  spectrum_of a = spectrum_of b.
Proof.
  intros H. unfold spectrum_of, fft_magnitudes, Np.rfft. now rewrite H.
Qed.

End Window.

(** X14.  The callback looks at one window only: its effect depends on
    the first [WINDOW_SIZE] frames of channel 0 of the buffer, frames the
    buffer does not have counting as zeros.  The other channel, and the
    frames after the first 1024, change nothing. *)
Theorem callback_reads_one_window
        (indata1 indata2 : Np.ndarray2) (w : World) :
  Np.shape1 indata1 <> 0%nat -> Np.shape1 indata2 <> 0%nat ->
  (forall i, (i < WINDOW_SIZE)%nat ->
             window_sample indata1 i = window_sample indata2 i) ->
  AudioStream._audio_callback indata1 w
  = AudioStream._audio_callback indata2 w.
Proof.
  intros H1 H2 Hsame.
  destruct (column0_some indata1 H1) as [s1 [Hc1 _]].
  destruct (column0_some indata2 H2) as [s2 [Hc2 _]].
  assert (Hspec : spectrum_of s1 = spectrum_of s2).
  { apply spectrum_of_resize.
    rewrite (resize_column0 indata1 s1 WINDOW_SIZE Hc1).
    rewrite (resize_column0 indata2 s2 WINDOW_SIZE Hc2).
    apply map_ext_in. intros i Hi. apply in_seq in Hi. apply Hsame. lia. }
  destruct (aud_is_running w) eqn:Hrun.
  - rewrite (callback_running indata1 s1 w Hrun Hc1).
    rewrite (callback_running indata2 s2 w Hrun Hc2).
    now rewrite Hspec.
  - now rewrite !callback_stopped.
Qed.

Lemma callback_reads_one_window_witness :
  let short := Np.mk_ndarray2 2 2 (fun i c => INR (i + c)) in
  let padded :=
    Np.mk_ndarray2 2000 1
      (fun i _ => match i with 0%nat => 0 | 1%nat => 1 | _ => 0 end) in
  AudioStream._audio_callback short (Application.init [])
  = AudioStream._audio_callback padded (Application.init []).
Proof.
  intros short padded.
  apply (callback_reads_one_window short padded (Application.init [])).
  - simpl. discriminate.
  - simpl. discriminate.
  - intros i Hi. unfold window_sample, short, padded.
    cbn [Np.shape0 Np.item].
    destruct i as [|[|i]].
    + reflexivity.
    + cbn [Nat.ltb Nat.leb]. rewrite Nat.add_0_r.
      destruct (Nat.ltb_spec 1 2000); [reflexivity|lia].
    + replace (Nat.ltb (S (S i)) 2) with false
        by (symmetry; apply Nat.ltb_ge; lia).
      destruct (Nat.ltb (S (S i)) 2000); reflexivity.
Defined.

(** ** Starting the audio stream: lines 89-95 and 168-173 *)

Section AudioStart.

Lemma audio_start_keeps_flag (w : World) :
  aud_is_running (snd (AudioStream.start w)) = aud_is_running w.
Proof.
  apply (preserves_audio_start
           (fun w w' => aud_is_running w' = aud_is_running w));
    intros; simpl in *; congruence.
Qed.

Lemma audio_start_quiet (w : World) :
  faults w = [] ->
  AudioStream.start w = (Ok tt, set_stream (Some StreamActive) w).
Proof.
  intros Hf. unfold AudioStream.start, AudioStream.stream_start, bind,
    ext_call, modify. rewrite Hf. cbn [faults set_stream]. rewrite Hf.
  reflexivity.
Qed.

End AudioStart.

(** X16.  A stopped audio session cannot be started again: [start] does
    not set [is_running] back, so after [stop] then [start] the stream is
    open and active again (when the device answers) but the callback
    drops every buffer it is handed. *)
Theorem stopped_session_stays_deaf (w : World) (indata : Np.ndarray2) :
  faults (snd (AudioStream.stop w)) = [] ->
  let w' := snd (AudioStream.start (snd (AudioStream.stop w))) in
  stream w' = Some StreamActive /\
  aud_is_running w' = false /\
  AudioStream._audio_callback indata w' = (Ok tt, w').
Proof.
  intros Hf w'.
  destruct (audio_stop_spec w) as [w1 [Hs [Hflag _]]].
  assert (Hoff : aud_is_running w' = false).
  { unfold w'. rewrite audio_start_keeps_flag, Hs. exact Hflag. }
  split; [|split; [exact Hoff|now apply callback_stopped]].
  unfold w'. now rewrite (audio_start_quiet _ Hf).
Qed.

Lemma stopped_session_stays_deaf_witness :
  let w' := snd (AudioStream.start
                   (snd (AudioStream.stop (Application.init [])))) in
  AudioStream._audio_callback (Np.mk_ndarray2 3 2 (fun _ _ => 1)) w'
  = (Ok tt, w').
Proof.
  intros w'.
  apply (stopped_session_stays_deaf
           (Application.init []) (Np.mk_ndarray2 3 2 (fun _ _ => 1))).
  reflexivity.
Defined.

(** X17.  [AudioStream.start] on a fresh session raises nothing but
    [PortAudioError].  When it raises, the stream is either not recorded
    at all (opening failed) or recorded open and inactive (starting
    failed), never active; and a later [stop] whose calls succeed leaves
    no stream open. *)
Theorem failed_start_leaves_no_active_stream (w w1 : World) (e : exn) :
  stream w = None ->
  AudioStream.start w = (Raise e, w1) ->
  e = PortAudioError /\
  (stream w1 = None \/ stream w1 = Some StreamInactive) /\
  (faults w1 = [] ->
   stream (snd (AudioStream.stop w1)) = None \/
   stream (snd (AudioStream.stop w1)) = Some StreamClosed).
Proof.
  intros Hnone Hstart.
  assert (H : e = PortAudioError /\
              (stream w1 = None \/ stream w1 = Some StreamInactive)).
  { revert Hstart.
    unfold AudioStream.start, AudioStream.stream_start, bind, ext_call,
      modify.
    destruct (faults w) as [|[|] fs] eqn:Hf; cbn [faults set_stream];
      rewrite ?Hf; cbn [faults set_faults set_stream];
      try discriminate.
    - intros [= <- <-]. cbn [stream set_faults]. auto.
    - destruct fs as [|[|] fs]; try discriminate.
      intros [= <- <-]. cbn [stream set_faults set_stream]. auto. }
  destruct H as [He Hst]. split; [exact He|]. split; [exact Hst|].
  intros Hf.
  destruct (audio_stop_spec w1) as [w2 [Hs [_ [Hn [Hq _]]]]].
  rewrite Hs. cbn [snd]. destruct Hst as [Hst|Hst].
  - left. rewrite (Hn Hst). exact Hst.
  - right. rewrite (Hq Hf); [reflexivity|congruence].
Qed.

Lemma failed_start_leaves_no_active_stream_witness :
  let w := Application.init [false; true] in
  exists w1,
    AudioStream.start w = (Raise PortAudioError, w1) /\
    stream w1 = Some StreamInactive /\
    stream (snd (AudioStream.stop w1)) = Some StreamClosed.
Proof.
  intros w.
  assert (Hs : AudioStream.start w
               = (Raise PortAudioError,
                  set_stream (Some StreamInactive) (set_faults [] w)))
    by reflexivity.
  destruct (failed_start_leaves_no_active_stream w _ _ eq_refl Hs)
    as [_ [_ Hstop]].
  eexists. split; [exact Hs|]. split; [reflexivity|].
  destruct (Hstop eq_refl) as [H|H]; [discriminate H|exact H].
Defined.

(** X18.  [Application.run] up to the main loop, from a state without a
    stream: it completes with the stream active and one more tick
    scheduled; or the device fails, it raises [PortAudioError] and no
    tick is scheduled, so that nothing is ever drawn; or Tk fails, it
    raises [TclError] with no tick scheduled while the stream is already
    active. *)
Theorem run_starts_audio_before_ticks (w : World) :
  stream w = None ->
  exists result w',
    Application.run w = (result, w') /\
    ((result = Ok tt /\ stream w' = Some StreamActive /\
      timers w' = S (timers w)) \/
     (result = Raise PortAudioError /\ stream w' <> Some StreamActive /\
      timers w' = timers w) \/
     (result = Raise TclError /\ stream w' = Some StreamActive /\
      timers w' = timers w)).
Proof.
  intros Hnone. destruct w as [app q vis cv aud st tm out fl].
  simpl in Hnone. subst st.
  unfold Application.run, Application.root_after, AudioStream.start,
    AudioStream.stream_start, bind, ext_call, modify.
  destruct fl as [|[|] [|[|] [|[|] fl]]]; cbn;
    do 2 eexists; (split; [reflexivity|]); cbn;
    first [ left; repeat split; reflexivity
          | right; left; repeat split; congruence
          | right; right; repeat split; reflexivity ].
Qed.

Lemma run_starts_audio_before_ticks_witness :
  Application.run (Application.init [true])
  = (Raise PortAudioError, set_faults [] (Application.init [true])) /\
  timers (set_faults [] (Application.init [true])) = 0%nat.
Proof.
  destruct (run_starts_audio_before_ticks (Application.init [true]) eq_refl)
    as [result [w' [Hrun _]]].
  split; reflexivity.
Defined.

(** ** What [update_bars] can raise *)

Section UpdateErrors.

Import SpectrumVisualizer.

Lemma draw_bars_raises (hs : list R) (bars : list nat) :
  forall (w w' : World) (e : exn),
    draw_bars hs bars w = (Raise e, w') ->
    e = TclError \/
    (e = IndexError /\ exists i, In i bars /\ (length hs <= i)%nat).
Proof.
  induction bars as [|i rest IH]; intros w w' e Hraise; [discriminate|].
  destruct (nth_error hs i) as [v|] eqn:Hv.
  - rewrite (draw_bars_turn hs i rest v w Hv) in Hraise.
    destruct (faults w) as [|[|] fs].
    + destruct (IH _ _ _ Hraise) as [H|[H [j [Hj Hlen]]]]; [now left|].
      right. split; [exact H|]. exists j. split; [now right|exact Hlen].
    + injection Hraise as <- _. now left.
    + destruct (IH _ _ _ Hraise) as [H|[H [j [Hj Hlen]]]]; [now left|].
      right. split; [exact H|]. exists j. split; [now right|exact Hlen].
  - cbn [draw_bars] in Hraise. rewrite Hv in Hraise.
    injection Hraise as <- _. right. split; [reflexivity|].
    exists i. split; [now left|]. now apply nth_error_None.
Qed.

Lemma update_bars_raises (frame : list R) (w w' : World) (e : exn) :
  update_bars frame w = (Raise e, w') ->
  e = IndexError /\ (length frame < NUM_BARS)%nat /\
  Np.all_zero frame = false /\ vis_is_running w = true.
Proof.
  unfold update_bars, bind, get.
  destruct (vis_is_running w) eqn:Hvis; cbn [negb]; [|discriminate].
  destruct (Np.all_zero frame) eqn:Hz.
  - intros Hraise.
    pose proof (collapse_bars_total (seq 0 NUM_BARS) w) as Hok.
    rewrite Hraise in Hok. discriminate.
  - assert (Hne : frame <> []) by (intros ->; discriminate).
    destruct (rescale_some frame Hne) as [hs Hhs].
    unfold try_except. rewrite Hhs.
    destruct (draw_bars hs (seq 0 NUM_BARS) w) as [[[]|e1] w1] eqn:Hdraw;
      [discriminate|].
    destruct (draw_bars_raises _ _ _ _ _ Hdraw) as [->|[-> [i [Hi Hlen]]]];
      [discriminate|].
    intros [= <- _]. apply in_seq in Hi.
    rewrite (rescale_length _ _ Hhs) in Hlen.
    repeat split; auto. lia.
Qed.

End UpdateErrors.

(** X19.  [update_bars] raises in one case only: the visualizer runs and
    the frame is not all zero and has fewer values than there are bars;
    the exception is then [IndexError].  A [TclError] never leaves it,
    and a frame of at least [NUM_BARS] values is always drawn without an
    exception. *)
Theorem update_bars_raises_only_on_short_frame
        (frame : list R) (w w' : World) (e : exn) :
  SpectrumVisualizer.update_bars frame w = (Raise e, w') ->
  e = IndexError /\ (length frame < NUM_BARS)%nat /\
  Np.all_zero frame = false /\ vis_is_running w = true.
Proof. apply update_bars_raises. Qed.

Lemma update_bars_raises_only_on_short_frame_witness :
  exists w',
    SpectrumVisualizer.update_bars [1; 2] (Application.init [])
    = (Raise IndexError, w') /\
    (length [1; 2] < NUM_BARS)%nat.
Proof.
  assert (Hnz : Np.all_zero [1; 2] = false).
  { destruct (Np.all_zero [1; 2]) eqn:Hz; [|reflexivity].
    apply all_zero_true in Hz. inversion Hz; lra. }
  destruct (update_bars_short [1; 2] (Application.init []) eq_refl eq_refl)
    as [w' [Hup _]]; [unfold NUM_BARS; simpl; lia|exact Hnz|].
  exists w'. split; [exact Hup|].
  apply (update_bars_raises_only_on_short_frame _ _ _ _ Hup).
Defined.
